(** * 3DCloud: procedural cloud spheres, gradient-noise texture and the
      ray-marching fragment shader

    A shallow embedding of

    - [src/Noise.cpp]   (module [Noise]): the permutation table, [perlin]
      and [Noise::generatePerlinNoiseTexture];
    - [src/main.cpp]    (module [Cloud]): [generateCloudSpheres] and
      [computeBoundingSphere];
    - the fragment shader (module [FragmentShader]): [sdCloud],
      [cloudDensity] and [main].

    Number model.  C++ [int] values are [Z].  The [double] arithmetic of
    [Noise.cpp] only uses field operations, comparisons and [floor], so it
    is carried out exactly in [Q] and stays executable.  The [float]
    arithmetic of [main.cpp] and of the shader needs [sqrt], [exp], [cos]
    and [sin]; it is carried out in the real numbers [R].  Rounding,
    infinities and NaN are outside the model, and so is overflow of [int]
    arithmetic.  Two places where rounding decides the outcome are
    stated accordingly: the weight of the radius interpolation is only
    taken to lie between 0 and 1, both included, and a texture byte is
    given up to one unit.

    The definitions come first; the properties follow in [VectorFacts],
    [NoiseFacts], [CloudFacts] and [ShaderFacts]. *)

From Stdlib Require Import ZArith QArith Qround Qminmax Reals Psatz Lia.
From stdpp Require Import base option list.

Local Open Scope Z_scope.

(** ** Outcomes of a C++ call *)

Inductive exn : Type :=
| length_error.

(** A call either returns, or throws, or performs an access outside an
    array (for which C++ defines no behaviour). *)
Inductive outcome (A : Type) : Type :=
| Returns (a : A)
| Throws (e : exn)
| Undefined.

Arguments Returns {A} a.
Arguments Throws {A} e.
Arguments Undefined {A}.

(** A [std::vector] constructor or [reserve] receives its [int] argument
    converted to the 64-bit [size_t]; a negative [int] becomes a count of at
    least [2^64 - 2^31], beyond [max_size()] of every element type, and the
    call throws [std::length_error]. *)
Definition size_t_of_int (n : Z) : Z := n mod 2 ^ 64.

Definition max_size (sizeof : Z) : Z := (2 ^ 63 - 1) / sizeof.

Definition vector_size_ok (sizeof n : Z) : bool :=
  size_t_of_int n <=? max_size sizeof.

(** ** Noise.cpp *)

Module Noise.

(** The values of an [unsigned char], and of an entry of the table. *)
Definition byte_range (v : Z) : Prop := 0 <= v <= 255.

(** [fade], [lerp], [grad] *)
Definition fade (t : Q) : Q :=
  (t * t * t * (t * (t * 6 - 15) + 10))%Q.

Definition lerp (t a b : Q) : Q :=
  (a + t * (b - a))%Q.

Definition grad (hash : Z) (x y : Q) : Q :=
  let h := Z.land hash 7 in
  let u := if h <? 4 then x else y in
  let v := if h <? 4 then y else x in
  ((if Z.land h 1 =? 0 then u else - u) + (if Z.land h 2 =? 0 then v else - v))%Q.

(** Array accesses with an [int] index; [None] is an access out of bounds. *)
Definition read (a : list Z) (i : Z) : option Z :=
  if 0 <=? i then a !! Z.to_nat i else None.

Definition write (a : list Z) (i v : Z) : option (list Z) :=
  if (0 <=? i) && (i <? Z.of_nat (length a))
  then Some (<[Z.to_nat i := v]> a)
  else None.

(** [std::swap(a[i], a[j])] *)
Definition swap (a : list Z) (i j : Z) : option (list Z) :=
  vi ← read a i;
  vj ← read a j;
  a' ← write a i vj;
  write a' j vi.

(** [for (int i = lo; i < lo + n; i++) body], threading the loop state. *)
Fixpoint for_up {St : Type} (body : Z -> St -> option St) (lo : Z) (n : nat) (s : St)
  : option St :=
  match n with
  | O => Some s
  | S n' => s' ← body lo s; for_up body (lo + 1) n' s'
  end.

(** [(unsigned char)d] for a double [d]: truncation toward zero, then the
    low eight bits. *)
Definition Qtruncate (q : Q) : Z :=
  if Qle_bool 0 q then Qfloor q else Qceiling q.

Definition to_uchar (q : Q) : Z := Qtruncate q mod 256.

(** 2D Perlin noise over the table [p]. *)
Definition perlin (p : list Z) (x y : Q) : option Q :=
  let X := Z.land (Qfloor x) 255 in
  let Y := Z.land (Qfloor y) 255 in
  let x := (x - inject_Z (Qfloor x))%Q in
  let y := (y - inject_Z (Qfloor y))%Q in
  let u := fade x in
  let v := fade y in
  pX ← read p X;
  let A := pX + Y in
  pX1 ← read p (X + 1);
  let B := pX1 + Y in
  pA ← read p A;
  pB ← read p B;
  pA1 ← read p (A + 1);
  pB1 ← read p (B + 1);
  Some (lerp v
          (lerp u (grad pA x y) (grad pB (x - 1) y))
          (lerp u (grad pA1 x (y - 1)) (grad pB1 (x - 1) (y - 1))))%Q.

Section WithRand.

(** The C library generator behind [srand] and [rand] is not part of the
    repository: its state, the state [srand] installs and the step of
    [rand] are parameters.  [rand] returns a value in [0, RAND_MAX]. *)
Variable rand_state : Type.
Variable srand : Z -> rand_state.
Variable rand : rand_state -> Z * rand_state.

(** The contract of [rand]: a value in [0, RAND_MAX]. *)
Definition rand_nonneg : Prop := forall s, 0 <= fst (rand s).

(** The process-wide state [Noise.cpp] works on: the generator and the
    global [int p[512]]. *)
Record globals : Type := Globals {
  generator : rand_state;
  p : list Z
}.

Definition well_formed (g : globals) : Prop := length (p g) = 512%nat.

(** The shuffle loop [for (int i = 255; i > 0; i--)] from index [i] down. *)
Fixpoint shuffle (i : nat) (permutation : list Z) (s : rand_state)
  : option (list Z * rand_state) :=
  match i with
  | O => Some (permutation, s)
  | S i' =>
      let (r, s') := rand s in
      let j := Z.rem r (Z.of_nat i + 1) in
      permutation' ← swap permutation (Z.of_nat i) j;
      shuffle i' permutation' s'
  end.

Definition initPermutation (seed : Z) (g : globals) : option globals :=
  permutation0 ← for_up (fun i a => write a i i) 0 256 (replicate 256 0);
  '(permutation, s) ← shuffle 255 permutation0 (srand seed);
  p' ← for_up (fun i tbl =>
                 v ← read permutation i;
                 tbl' ← write tbl i v;
                 write tbl' (i + 256) v) 0 256 (p g);
  Some {| generator := s; p := p' |}.

(** One pixel of the texture: the body of the inner loop. *)
Definition pixel (tbl : list Z) (width height i j : Z) : option Z :=
  let frequency := 8%Q in
  let x := (inject_Z i / inject_Z width)%Q in
  let y := (inject_Z j / inject_Z height)%Q in
  noiseValue ← perlin tbl (x * frequency)%Q (y * frequency)%Q;
  let noiseValue := ((noiseValue + 1) / 2)%Q in
  let noiseValue := Qmin (Qmax noiseValue 0) 1 in
  Some (to_uchar (noiseValue * 255)%Q).

(** [textureData(width * height)] throws when the product is negative;
    the loops do not run for a width or height that is not positive. *)
Definition generatePerlinNoiseTexture (width height seed : Z) (g : globals)
  : outcome (list Z * globals) :=
  match initPermutation seed g with
  | None => Undefined
  | Some g' =>
      if vector_size_ok 1 (width * height) then
        let textureData := replicate (Z.to_nat (width * height)) 0 in
        match
          for_up (fun j td =>
            for_up (fun i td =>
                      value ← pixel (p g') width height i j;
                      write td (j * width + i) value)
                   0 (Z.to_nat width) td)
            0 (Z.to_nat height) textureData
        with
        | Some td => Returns (td, g')
        | None => Undefined
        end
      else Throws length_error
  end.

(** What the caller sees of a call: the returned grid. *)
Definition grid_of (o : outcome (list Z * globals)) : outcome (list Z) :=
  match o with
  | Returns (td, _) => Returns td
  | Throws e => Throws e
  | Undefined => Undefined
  end.

Definition globals_after (o : outcome (list Z * globals)) (g : globals) : globals :=
  match o with
  | Returns (_, g') => g'
  | _ => g
  end.

End WithRand.

Arguments generator {rand_state} g.
Arguments p {rand_state} g.
Arguments Globals {rand_state} generator p.

(** The generator the C standard gives as an example, used to run the
    definitions on concrete inputs. *)
Definition lcg_srand (seed : Z) : Z := seed mod 2 ^ 32.

Definition lcg_rand (s : Z) : Z * Z :=
  let s' := (s * 1103515245 + 12345) mod 2 ^ 32 in
  ((s' / 65536) mod 32768, s').

(** The state at program start (the zero-initialised [p]), and a state
    as some earlier use of [rand] and [p] may have left it. *)
Definition zero_globals : globals Z := Globals 0 (replicate 512 0).

Definition used_globals : globals Z := Globals 2024 (replicate 512 77).

End Noise.

(** ** Vectors of glm and GLSL *)

Local Open Scope R_scope.

Record vec2 : Type := Vec2 { x2 : R; y2 : R }.
Record vec3 : Type := Vec3 { vx : R; vy : R; vz : R }.
Record vec4 : Type := Vec4 { x4 : R; y4 : R; z4 : R; w4 : R }.

(** [vec3(a)] *)
Definition vec3_splat (a : R) : vec3 := Vec3 a a a.

Definition vadd (a b : vec3) : vec3 := Vec3 (vx a + vx b) (vy a + vy b) (vz a + vz b).
Definition vsub (a b : vec3) : vec3 := Vec3 (vx a - vx b) (vy a - vy b) (vz a - vz b).
Definition vscale (k : R) (a : vec3) : vec3 := Vec3 (k * vx a) (k * vy a) (k * vz a).
Definition dot (a b : vec3) : R := vx a * vx b + vy a * vy b + vz a * vz b.
Definition vlength (a : vec3) : R := sqrt (dot a a).
Definition normalize (a : vec3) : vec3 := vscale (/ vlength a) a.

(** [v[k]] and [v[k] = r] for [k] in 0..2 *)
Definition component (v : vec3) (k : nat) : R :=
  match k with
  | O => vx v
  | S O => vy v
  | _ => vz v
  end.

Definition set_component (v : vec3) (k : nat) (r : R) : vec3 :=
  match k with
  | O => Vec3 r (vy v) (vz v)
  | S O => Vec3 (vx v) r (vz v)
  | _ => Vec3 (vx v) (vy v) r
  end.

(** ** main.cpp *)

Module Cloud.

Record Sphere : Type := MkSphere { center : vec3; radius : R }.

(** [sizeof(Sphere)]: four floats. *)
Definition sizeof_Sphere : Z := 16.

(** *** computeBoundingSphere *)

(** The body of [for(int k=0; k<3; k++)] for one sphere. *)
Definition extend_axis (s : Sphere) (b : vec3 * vec3) (k : nat) : vec3 * vec3 :=
  let '(minP, maxP) := b in
  let c := center s in
  let minP :=
    if Rlt_dec (component c k - radius s) (component minP k)
    then set_component minP k (component c k - radius s) else minP in
  let maxP :=
    if Rgt_dec (component c k + radius s) (component maxP k)
    then set_component maxP k (component c k + radius s) else maxP in
  (minP, maxP).

(** The body of the first loop over the spheres. *)
Definition extend_bounds (b : vec3 * vec3) (s : Sphere) : vec3 * vec3 :=
  fold_left (extend_axis s) (seq 0 3) b.

(** The body of the second loop. *)
Definition extend_radius (c : vec3) (radius_ : R) (s : Sphere) : R :=
  let dist_ := vlength (vsub (center s) c) + radius s in
  if Rgt_dec dist_ radius_ then dist_ else radius_.

Definition computeBoundingSphere (spheres : list Sphere) : Sphere :=
  let '(minP, maxP) :=
    fold_left extend_bounds spheres (vec3_splat 1e9, vec3_splat (-1e9)) in
  let center_ := vscale 0.5 (vadd minP maxP) in
  let radius_ := fold_left (extend_radius center_) spheres 0 in
  {| center := center_; radius := radius_ |}.

(** A call of [computeBoundingSphere]: the function has no failing path
    and no check of its argument, so the call always returns. *)
Inductive bounding_error : Type :=
| EmptyInput.

Definition computeBoundingSphere_call (spheres : list Sphere)
  : Sphere + bounding_error :=
  inl (computeBoundingSphere spheres).

(** Two overlapping spheres, used to run [computeBoundingSphere]. *)
Definition two_spheres : list Sphere :=
  [ {| center := Vec3 0 0 0; radius := 1 |};
    {| center := Vec3 3 0 0; radius := 2 |} ].

(** *** generateCloudSpheres *)

Section WithRandom.

(** The engine [gen] and the distributions of [<random>] are not part of
    the repository: the state of the random source (the engine together
    with whatever the distribution objects keep between draws) and one draw
    of each distribution, returning the value and the next state, are
    parameters.  [uniform01] draws from [uniform_real_distribution(0, 1)],
    [normal m s] from [normal_distribution(m, s)], [gamma a b] from
    [gamma_distribution(a, b)]. *)
Variable engine : Type.
Variable uniform01 : engine -> R * engine.
Variable normal : R -> R -> engine -> R * engine.
Variable gamma : R -> R -> engine -> R * engine.

(** The ranges of the draws: a uniform draw lies between 0 and 1, a
    gamma draw is positive. *)
Definition uniform01_in_range : Prop :=
  forall gen, 0 <= fst (uniform01 gen) <= 1.

Definition gamma_positive : Prop :=
  forall a b gen, 0 < fst (gamma a b gen).

(** The lambda [betaRand]. *)
Definition betaRand (a b : R) (gen : engine) : R * engine :=
  let '(x, gen) := gamma a 1 gen in
  let '(y, gen) := gamma b 1 gen in
  (x / (x + y), gen).

Section Parameters.

Variables L delta_ratio sigma_ratio alpha beta base_radius_ratio : R.

Definition sigma : R := L * sigma_ratio.
Definition delta : R := L * delta_ratio.

(** Lower and upper bound of the radius of an additional sphere with
    horizontal position [(x, z)] and base height [y_base]. *)
Definition min_radius (base_radius : R) : R :=
  Rmax (0.05 * L) (base_radius * 0.2).

Definition max_radius (x z y_base : R) : R :=
  let dx_ := Rmin x (L - x) in
  let dz_ := Rmin z (L - z) in
  let max_radius_y := (L - y_base) * 0.5 in
  let d_max := Rmin (Rmin dx_ dz_) max_radius_y in
  Rmin d_max (0.5 * L).

(** [max_radius] of a sphere that has been built: its base height is
    [center.y - radius]. *)
Definition max_radius_of (s : Sphere) : R :=
  max_radius (vx (center s)) (vz (center s)) (vy (center s) - radius s).

(** The base sphere. *)
Definition base_sphere (gen : engine) : Sphere * engine :=
  let '(u, gen) := uniform01 gen in
  let base_y := u * (delta / 2) in
  let dx := L / 2 in
  let dz := L / 2 in
  let max_base_radius := Rmin (Rmin dx dz) ((L - base_y) * 0.5) in
  let base_radius := Rmin (L * base_radius_ratio) max_base_radius in
  ({| center := Vec3 (L / 2) (base_y + base_radius) (L / 2);
      radius := base_radius |}, gen).

(** One iteration of the loop that adds the other spheres. *)
Definition additional_sphere (base_radius : R) (gen : engine) : Sphere * engine :=
  let '(gx, gen) := normal (L / 2) sigma gen in
  let x := Rmax 0 (Rmin L gx) in
  let '(gz, gen) := normal (L / 2) sigma gen in
  let z := Rmax 0 (Rmin L gz) in
  let dx_ := Rmin x (L - x) in
  let dz_ := Rmin z (L - z) in
  let '(u, gen) := uniform01 gen in
  let y_base := u * delta in
  let max_radius_y := (L - y_base) * 0.5 in
  let d_max := Rmin (Rmin dx_ dz_) max_radius_y in
  let min_radius_ := Rmax (0.05 * L) (base_radius * 0.2) in
  let max_radius_ := Rmin d_max (0.5 * L) in
  let '(br, gen) := betaRand alpha beta gen in
  let radius_ := min_radius_ + br * (max_radius_ - min_radius_) in
  ({| center := Vec3 x (y_base + radius_) z; radius := radius_ |}, gen).

(** What one iteration produces: a sphere at [(x, z)] inside the footprint
    of the box, resting at height [u * delta], whose radius is interpolated
    between [min_radius] and its own [max_radius] with a weight between 0
    and 1.  The two ends are included: over the reals the quotient
    [x / (x + y)] of two positive draws stays away from them, in single
    precision it can round to either. *)
Definition generated (base_radius : R) (s : Sphere) : Prop :=
  exists u br : R,
    0 <= u <= 1 /\ 0 <= br <= 1
    /\ vy (center s) - radius s = u * delta
    /\ (0 <= L -> 0 <= vx (center s) <= L /\ 0 <= vz (center s) <= L)
    /\ radius s = min_radius base_radius
                  + br * (max_radius_of s - min_radius base_radius).

(** [for(int i=0; i<N-1; i++)], [n] iterations left. *)
Fixpoint additional_spheres (n : nat) (base_radius : R)
  (spheres : list Sphere) (gen : engine) : list Sphere * engine :=
  match n with
  | O => (spheres, gen)
  | S n' =>
      let '(s, gen) := additional_sphere base_radius gen in
      additional_spheres n' base_radius (spheres ++ [s]) gen
  end.

Definition generateCloudSpheres (N : Z) (gen : engine)
  : outcome (list Sphere * engine) :=
  if vector_size_ok sizeof_Sphere N then
    let '(base, gen) := base_sphere gen in
    Returns (additional_spheres (Z.to_nat (N - 1)) (radius base) [base] gen)
  else Throws length_error.

End Parameters.

End WithRandom.

(** The call [generateCloudSpheres(L, N)] with the default arguments. *)
Definition generateCloudSpheres_default {engine : Type}
  (uniform01 : engine -> R * engine) (normal gamma : R -> R -> engine -> R * engine)
  (L : R) (N : Z) (gen : engine) : outcome (list Sphere * engine) :=
  generateCloudSpheres engine uniform01 normal gamma L 0.1 0.2 2 5 0.3 N gen.

(** Constant draws, used to run the generator on concrete inputs: every
    uniform draw is [u], every normal draw lies [k] standard deviations
    from its mean, every gamma draw is [g].  The engine state counts the
    draws. *)
Definition const_uniform (u : R) (gen : nat) : R * nat := (u, S gen).
Definition const_normal (k : R) (mean stddev : R) (gen : nat) : R * nat :=
  (mean + k * stddev, S gen).
Definition const_gamma (g : R) (a b : R) (gen : nat) : R * nat := (g, S gen).

(** The axis-aligned box the first loop of [computeBoundingSphere]
    computes: the pair [(minP, maxP)]. *)
Definition bounding_box (spheres : list Sphere) : vec3 * vec3 :=
  fold_left extend_bounds spheres (vec3_splat 1e9, vec3_splat (-1e9)).

(** A box contains a sphere when it contains its extremal points on
    every axis; a box lies within another when the other reaches at least
    as far on every axis. *)
Definition box_contains (b : vec3 * vec3) (s : Sphere) : Prop :=
  forall k, (k < 3)%nat ->
    component (fst b) k <= component (center s) k - radius s
    /\ component (center s) k + radius s <= component (snd b) k.

Definition box_within (b b' : vec3 * vec3) : Prop :=
  forall k, (k < 3)%nat ->
    component (fst b') k <= component (fst b) k
    /\ component (snd b) k <= component (snd b') k.

(** [dist_] of the second loop: the distance from [c] to the far side of
    the sphere. *)
Definition reach (c : vec3) (s : Sphere) : R :=
  vlength (vsub (center s) c) + radius s.

(** The scene [main] builds: [generateCloudSpheres(L, N)] with [L = 10] and
    [N = 20], and the bounding sphere of the result. *)
Definition main_scene {engine : Type}
  (uniform01 : engine -> R * engine) (normal gamma : R -> R -> engine -> R * engine)
  (gen : engine) : outcome (list Sphere * Sphere * engine) :=
  let L := 10 in
  let N := 20%Z in
  match generateCloudSpheres_default uniform01 normal gamma L N gen with
  | Returns (spheres, gen') => Returns (spheres, computeBoundingSphere spheres, gen')
  | Throws e => Throws e
  | Undefined => Undefined
  end.

End Cloud.

(** ** The vertex shader *)

Module VertexShader.

(** [main]: the position is passed through and the texture coordinate is
    the position mapped from [-1, 1] to [0, 1]; the result is
    [(gl_Position, vTexCoord)]. *)
Definition main (aPos : vec3) : vec4 * vec2 :=
  (Vec4 (vx aPos) (vy aPos) (vz aPos) 1,
   Vec2 (vx aPos * 0.5 + 0.5) (vy aPos * 0.5 + 0.5)).

End VertexShader.

(** ** The fragment shader *)

Module FragmentShader.

(** GLSL built-ins *)
Definition clamp (x lo hi : R) : R := Rmin (Rmax x lo) hi.

Definition smoothstep (edge0 edge1 x : R) : R :=
  let t := clamp ((x - edge0) / (edge1 - edge0)) 0 1 in
  t * t * (3 - 2 * t).

(** [mix(a, b, k)] on [vec3] with a scalar weight *)
Definition mix (a b : vec3) (k : R) : vec3 :=
  vadd (vscale (1 - k) a) (vscale k b).

Definition xyz (v : vec4) : vec3 := Vec3 (x4 v) (y4 v) (z4 v).

(** The state of the marching loop: the two accumulators, and whether a
    [break] has left the loop. *)
Record march_state : Type := MarchState {
  outColor : vec3;
  transmittance : R;
  stopped : bool
}.

(** Constants of [main] *)
Definition STEPS : nat := 64.
Definition SHADOW_STEPS : nat := 16.
Definition fogColor : vec3 := vec3_splat 1.
Definition lightColor : vec3 := Vec3 1 0.7 0.5.
Definition lightDir : vec3 := normalize (Vec3 1 1 (-0.3)).
Definition sigma_s : R := 2.
Definition sigma_a : R := 0.2.
Definition background : vec4 := Vec4 0.6 0.6 0.6 1.

Section Uniforms.

Variable iTime : R.
Variable uBoundingSphereCenter : vec3.
Variable uBoundingSphereRadius : R.
Variable uSphereCount : Z.
Variable uSpheres : Z -> vec4.
(** [texture(uNoiseTex, uv)]: the sampler with its bound texture. *)
Variable uNoiseTex : vec2 -> vec4.

(** [for (int i = 0; i < uSphereCount; i++)] of [sdCloud], [n] iterations
    left from index [i]. *)
Fixpoint sdCloud_loop (p : vec3) (n : nat) (i : Z) (d : R) : R :=
  match n with
  | O => d
  | S n' =>
      let center := xyz (uSpheres i) in
      let r := w4 (uSpheres i) in
      let distSphere := vlength (vsub p center) - r in
      sdCloud_loop p n' (i + 1)%Z (Rmin d distSphere)
  end.

Definition sdCloud (p : vec3) : R :=
  sdCloud_loop p (Z.to_nat uSphereCount) 0%Z 1e6.

Definition cloudDensity (p : vec3) : R :=
  let distVal := sdCloud p in
  if Rgt_dec distVal 0 then 0
  else
    let angle := iTime * 0.05 in
    let cosA := cos angle in
    let sinA := sin angle in
    let rx := vx p * cosA - vz p * sinA in
    let rz := vx p * sinA + vz p * cosA in
    let rotatedP := Vec3 rx (vy p) rz in
    let noiseVal := x4 (uNoiseTex (Vec2 (vx rotatedP * 0.1) (vz rotatedP * 0.1))) in
    smoothstep 0.3 1 noiseVal.

(** The shadow loop, [n] iterations left; the result is [shadow] when the
    loop is left. *)
Fixpoint shadow_loop (n : nat) (lpos : vec3) (shadow : R) : R :=
  match n with
  | O => shadow
  | S n' =>
      let stepSize := 0.05 in
      let lpos := vadd lpos (vscale stepSize lightDir) in
      let dCloud :=
        vlength (vsub lpos uBoundingSphereCenter) - uBoundingSphereRadius in
      if Rgt_dec dCloud 0 then shadow
      else
        let ds := cloudDensity lpos in
        if Rgt_dec ds 0.02 then
          let shadow := shadow * exp (- ds * 0.3) in
          if Rlt_dec shadow 0.01 then shadow
          else shadow_loop n' lpos shadow
        else shadow_loop n' lpos shadow
  end.

Section Ray.

(** The primary ray of the pixel. *)
Variables ro rd : vec3.

Definition ray_b : R := dot (vsub ro uBoundingSphereCenter) rd.
Definition ray_c2 : R :=
  dot (vsub ro uBoundingSphereCenter) (vsub ro uBoundingSphereCenter)
  - uBoundingSphereRadius * uBoundingSphereRadius.
Definition ray_det : R := ray_b * ray_b - ray_c2.
Definition ray_t1 : R := - ray_b - sqrt ray_det.
Definition ray_t2 : R := - ray_b + sqrt ray_det.
Definition tNear : R := Rmax ray_t1 0.
Definition tFar : R := ray_t2.
Definition marchStep : R := (tFar - tNear) / INR STEPS.

(** The body of the marching loop at step [i]. *)
Definition march_body (i : nat) (st : march_state) : march_state :=
  if stopped st then st
  else
    let tCurrent := tNear + INR i * marchStep in
    let pos := vadd ro (vscale tCurrent rd) in
    let dens := cloudDensity pos in
    if Rgt_dec dens 0.001 then
      let shadow := shadow_loop SHADOW_STEPS pos 1 in
      let scattering := vscale shadow (mix fogColor lightColor 0.3) in
      let stepColor :=
        vscale (dens * sigma_s * transmittance st * marchStep) scattering in
      let absorb := dens * (sigma_a + sigma_s) * marchStep in
      let transmittance' := transmittance st * exp (- absorb) in
      {| outColor := vadd (outColor st) stepColor;
         transmittance := transmittance';
         stopped := if Rlt_dec transmittance' 0.001 then true else false |}
    else st.

(** The loop state when [k] steps have been taken. *)
Fixpoint march (k : nat) : march_state :=
  match k with
  | O => {| outColor := vec3_splat 0; transmittance := 1; stopped := false |}
  | S k' => march_body k' (march k')
  end.

(** [main] from the ray-sphere intersection on. *)
Definition shade : vec4 :=
  if Rlt_dec ray_det 0 then background
  else if Rlt_dec ray_t2 0 then background
  else
    let st := march STEPS in
    let backgroundColor := vec3_splat 0.6 in
    let finalColor :=
      vadd (outColor st) (vscale (transmittance st) backgroundColor) in
    Vec4 (vx finalColor) (vy finalColor) (vz finalColor) 1.

End Ray.

(** The ray origin and direction [main] computes for a pixel. *)
Definition camera : vec3 :=
  vadd uBoundingSphereCenter (Vec3 0 0 (uBoundingSphereRadius * 2)).

Definition ray_direction (vTexCoord : vec2) : vec3 :=
  let uv := Vec2 (x2 vTexCoord * 2 - 1) (y2 vTexCoord * 2 - 1) in
  normalize (Vec3 (x2 uv * uBoundingSphereRadius) (y2 uv * uBoundingSphereRadius)
               (- uBoundingSphereRadius * 2)).

Definition main (vTexCoord : vec2) : vec4 :=
  shade camera (ray_direction vTexCoord).

End Uniforms.

(** A scene used to run the shader: one unit sphere at the origin, which is
    also the bounding sphere, under a texture that is 1 everywhere; the
    camera of [main] is then at [(0, 0, 2)]. *)
Definition unit_scene_spheres (i : Z) : vec4 := Vec4 0 0 0 1.
Definition white_texture (uv : vec2) : vec4 := Vec4 1 1 1 1.
Definition origin : vec3 := Vec3 0 0 0.
Definition eye : vec3 := Vec3 0 0 2.
Definition toward_sphere : vec3 := Vec3 0 0 (-1).
Definition away_from_sphere : vec3 := Vec3 0 0 1.
Definition sideways : vec3 := Vec3 1 0 0.

(** The texel [cloudDensity] reads for a point: the red channel at the
    rotated [xz] position scaled by 0.1. *)
Definition noise_sample (iTime : R) (uNoiseTex : vec2 -> vec4) (p : vec3) : R :=
  let angle := iTime * 0.05 in
  x4 (uNoiseTex (Vec2 ((vx p * cos angle - vz p * sin angle) * 0.1)
                      ((vx p * sin angle + vz p * cos angle) * 0.1))).

(** The point the marching loop visits at step [i]. *)
Definition sample_point (uBoundingSphereCenter : vec3) (uBoundingSphereRadius : R)
  (ro rd : vec3) (i : nat) : vec3 :=
  vadd ro
    (vscale (tNear uBoundingSphereCenter uBoundingSphereRadius ro rd
             + INR i * marchStep uBoundingSphereCenter uBoundingSphereRadius ro rd)
       rd).

(** The signed distance from [p] to the surface of sphere [i]. *)
Definition sphere_distance (uSpheres : Z -> vec4) (p : vec3) (i : Z) : R :=
  vlength (vsub p (xyz (uSpheres i))) - w4 (uSpheres i).


End FragmentShader.

(** * Properties *)

(** ** Sizes of vectors *)

Module VectorFacts.

Local Open Scope Z_scope.

Lemma vector_size_ok_int (sizeof n : Z) :
  0 < sizeof <= 16 -> 0 <= n < 2 ^ 31 -> vector_size_ok sizeof n = true.
Proof.
  intros Hs Hn. unfold vector_size_ok, size_t_of_int, max_size.
  apply Z.leb_le. rewrite Z.mod_small by lia.
  apply Z.div_le_lower_bound; [lia |]. nia.
Qed.

Lemma vector_size_ok_negative (sizeof n : Z) :
  0 < sizeof -> - 2 ^ 31 <= n < 0 -> vector_size_ok sizeof n = false.
Proof.
  intros Hs Hn. unfold vector_size_ok, size_t_of_int, max_size.
  apply Z.leb_gt.
  assert (E : n mod 2 ^ 64 = n + 2 ^ 64).
  { symmetry. apply Z.mod_unique with (q := -1); lia. }
  rewrite E.
  assert ((2 ^ 63 - 1) / sizeof <= 2 ^ 63 - 1).
  { apply Z.div_le_upper_bound; [lia |]. nia. }
  lia.
Qed.

End VectorFacts.

(** ** Noise.cpp: the permutation table and the texture *)

Module NoiseFacts.
Import Noise.

Local Open Scope Z_scope.

Lemma read_lookup (a : list Z) (i : Z) :
  0 <= i -> read a i = a !! Z.to_nat i.
Proof.
  intros Hi. unfold read. destruct (Z.leb_spec 0 i); [reflexivity | lia].
Qed.

Lemma read_in_bounds (a : list Z) (i : Z) :
  0 <= i < Z.of_nat (length a) -> exists v, read a i = Some v /\ v ∈ a.
Proof.
  intros Hi. rewrite read_lookup by lia.
  destruct (lookup_lt_is_Some_2 a (Z.to_nat i)) as [v Hv]; [lia |].
  exists v. split; [exact Hv |]. apply list_elem_of_lookup. eauto.
Qed.

Lemma write_in_bounds (a : list Z) (i v : Z) :
  0 <= i < Z.of_nat (length a) -> write a i v = Some (<[Z.to_nat i := v]> a).
Proof.
  intros Hi. unfold write.
  destruct (Z.leb_spec 0 i); [| lia].
  destruct (Z.ltb_spec i (Z.of_nat (length a))); [reflexivity | lia].
Qed.

Lemma write_Some (a a' : list Z) (i v : Z) :
  write a i v = Some a' ->
  0 <= i < Z.of_nat (length a) /\ a' = <[Z.to_nat i := v]> a.
Proof.
  unfold write.
  destruct (Z.leb_spec 0 i); simpl; [| discriminate].
  destruct (Z.ltb_spec i (Z.of_nat (length a))); [| discriminate].
  intros [= <-]. split; [lia | reflexivity].
Qed.

Lemma write_length (a a' : list Z) (i v : Z) :
  write a i v = Some a' -> length a' = length a.
Proof.
  intros H. apply write_Some in H as [_ ->]. apply length_insert.
Qed.

Lemma insert_byte_range (a : list Z) (n : nat) (v : Z) :
  byte_range v -> Forall byte_range a -> Forall byte_range (<[n := v]> a).
Proof.
  intros Hv Ha. apply Forall_insert; assumption.
Qed.

(** A loop invariant rule for [for_up]: the loop runs to its end. *)
Lemma for_up_inv {St : Type} (P : Z -> St -> Prop) (body : Z -> St -> option St)
  (lo : Z) (n : nat) (s : St) :
  P lo s ->
  (forall i t, lo <= i < lo + Z.of_nat n -> P i t ->
     exists t', body i t = Some t' /\ P (i + 1) t') ->
  exists s', for_up body lo n s = Some s' /\ P (lo + Z.of_nat n) s'.
Proof.
  revert lo s. induction n as [| n IH]; intros lo s H0 Hstep; simpl.
  - exists s. rewrite Z.add_0_r. auto.
  - destruct (Hstep lo s) as (s1 & E1 & H1); [lia | exact H0 |].
    rewrite E1. simpl.
    destruct (IH (lo + 1) s1 H1) as (s2 & E2 & H2).
    { intros i t Hi Ht. apply Hstep; [lia | exact Ht]. }
    exists s2. split; [exact E2 |].
    replace (lo + Z.of_nat (S n)) with (lo + 1 + Z.of_nat n) by lia. exact H2.
Qed.

(** The first loop of [initPermutation] builds the identity table. *)
Lemma identity_table :
  for_up (fun i a => write a i i) 0 256 (replicate 256 0) = Some (seqZ 0 256).
Proof. vm_compute. reflexivity. Qed.

Lemma identity_byte_range : Forall byte_range (seqZ 0 256).
Proof.
  apply Forall_forall. intros v Hv. apply elem_of_seqZ in Hv. unfold byte_range. lia.
Qed.

Lemma swap_in_bounds (a : list Z) (i j : Z) :
  0 <= i < Z.of_nat (length a) -> 0 <= j < Z.of_nat (length a) ->
  Forall byte_range a ->
  exists a', swap a i j = Some a' /\ length a' = length a /\ Forall byte_range a'.
Proof.
  intros Hi Hj Ha. unfold swap.
  destruct (read_in_bounds a i Hi) as (vi & -> & Hvi).
  destruct (read_in_bounds a j Hj) as (vj & -> & Hvj). simpl.
  rewrite (write_in_bounds a i vj Hi). simpl.
  rewrite write_in_bounds by (rewrite length_insert; lia).
  eexists. split; [reflexivity |]. split.
  - rewrite !length_insert. reflexivity.
  - rewrite Forall_forall in Ha.
    apply insert_byte_range; [auto |]. apply insert_byte_range; [auto |].
    apply Forall_forall. exact Ha.
Qed.

Lemma swap_length (a a' : list Z) (i j : Z) :
  swap a i j = Some a' -> length a' = length a.
Proof.
  unfold swap. intros H.
  destruct (read a i) as [vi |]; simpl in H; [| discriminate].
  destruct (read a j) as [vj |]; simpl in H; [| discriminate].
  destruct (write a i vj) as [a1 |] eqn:E1; simpl in H; [| discriminate].
  apply write_length in H. apply write_length in E1. congruence.
Qed.

Section WithRand.

Variable rand_state : Type.
Variable srand : Z -> rand_state.
Variable rand : rand_state -> Z * rand_state.

Local Abbreviation initPermutation := (Noise.initPermutation rand_state srand rand).
Local Abbreviation well_formed := (Noise.well_formed rand_state).

Lemma shuffle_length (i : nat) (l l' : list Z) (s s' : rand_state) :
  shuffle rand_state rand i l s = Some (l', s') -> length l' = length l.
Proof.
  revert l s. induction i as [| i IH]; intros l s H; simpl in H.
  - injection H as <- _. reflexivity.
  - destruct (rand s) as [r s1].
    destruct (swap l _ _) as [l1 |] eqn:E; simpl in H; [| discriminate].
    apply IH in H. apply swap_length in E. congruence.
Qed.

(** With a [rand] that keeps its contract the shuffle swaps inside the
    table: [j = rand() % (i + 1)] lies in [0, i]. *)
Lemma shuffle_in_bounds (i : nat) (l : list Z) (s : rand_state) :
  rand_nonneg rand_state rand -> (i < length l)%nat -> Forall byte_range l ->
  exists l' s', shuffle rand_state rand i l s = Some (l', s')
                /\ length l' = length l /\ Forall byte_range l'.
Proof.
  intros Hrand. revert l s. induction i as [| i IH]; intros l s Hi Hl; simpl.
  - exists l, s. auto.
  - pose proof (Hrand s) as Hr. destruct (rand s) as [r s1]. simpl in Hr.
    pose proof (Z.rem_bound_pos r (Z.of_nat (S i) + 1) Hr ltac:(lia)) as Hj.
    destruct (swap_in_bounds l (Z.of_nat (S i)) (Z.rem r (Z.of_nat (S i) + 1)))
      as (l1 & -> & Hlen & Hl1); [lia | lia | exact Hl |].
    simpl. destruct (IH l1 s1) as (l2 & s2 & E & Hlen2 & Hl2); [lia | exact Hl1 |].
    exists l2, s2. split; [exact E |]. split; [congruence | exact Hl2].
Qed.

(** The last loop of [initPermutation] overwrites all 512 entries. *)
Lemma copy_loop (perm tbl : list Z) :
  length perm = 256%nat -> length tbl = 512%nat ->
  for_up (fun i tbl =>
            v ← read perm i;
            tbl' ← write tbl i v;
            write tbl' (i + 256) v) 0 256 tbl
  = Some (perm ++ perm).
Proof.
  intros Hp Ht.
  destruct (for_up_inv
    (fun i t => length t = 512%nat /\
       forall k, (k < Z.to_nat i)%nat ->
         t !! k = perm !! k /\ t !! (k + 256)%nat = perm !! k)
    (fun i tbl =>
            v ← read perm i;
            tbl' ← write tbl i v;
            write tbl' (i + 256) v) 0 256 tbl) as (t & E & Hlen & Hk).
  - split; [exact Ht | intros k Hk; simpl in Hk; lia].
  - intros i t Hi [Hlen Hk].
    destruct (read_in_bounds perm i) as (v & Ev & _); [lia |].
    rewrite Ev. simpl.
    rewrite write_in_bounds by lia. simpl.
    rewrite write_in_bounds by (rewrite length_insert; lia).
    eexists. split; [reflexivity |]. split.
    { rewrite !length_insert. exact Hlen. }
    intros k Hklt. rewrite read_lookup in Ev by lia.
    destruct (decide (k = Z.to_nat i)) as [-> | Hne].
    + split.
      * rewrite list_lookup_insert_ne by lia.
        rewrite list_lookup_insert_eq by lia. auto.
      * replace (Z.to_nat i + 256)%nat with (Z.to_nat (i + 256)) by lia.
        rewrite list_lookup_insert_eq by (rewrite length_insert; lia). auto.
    + destruct (Hk k) as [H1 H2]; [lia |].
      split; rewrite !list_lookup_insert_ne by lia; assumption.
  - rewrite E. f_equal. apply list_eq. intros n.
    destruct (decide (n < 256)%nat) as [Hn | Hn].
    + rewrite lookup_app_l by lia. apply Hk. lia.
    + destruct (decide (n < 512)%nat) as [Hn' | Hn'].
      * rewrite lookup_app_r by lia. rewrite Hp.
        replace n with ((n - 256) + 256)%nat at 1 by lia. apply Hk. lia.
      * rewrite !lookup_ge_None_2; [reflexivity | rewrite length_app; lia | lia].
Qed.

Lemma initPermutation_unfold (seed : Z) (g : globals rand_state) :
  initPermutation seed g =
  match shuffle rand_state rand 255 (seqZ 0 256) (srand seed) with
  | Some (perm, s) =>
      match
        for_up (fun i tbl =>
                  v ← read perm i;
                  tbl' ← write tbl i v;
                  write tbl' (i + 256) v) 0 256 (p g)
      with
      | Some p' => Some {| generator := s; p := p' |}
      | None => None
      end
  | None => None
  end.
Proof.
  unfold Noise.initPermutation. rewrite identity_table.
  change (Some (seqZ 0 256) ≫= ?f) with (f (seqZ 0 256)). cbv beta.
  destruct (shuffle rand_state rand 255 (seqZ 0 256) (srand seed)) as [[perm s] |];
    reflexivity.
Qed.

(** What [initPermutation] leaves when it stays inside its arrays: the
    shuffled table twice, whatever the table held before. *)
Lemma initPermutation_Some (seed : Z) (g g' : globals rand_state) :
  well_formed g -> initPermutation seed g = Some g' ->
  exists perm s,
    shuffle rand_state rand 255 (seqZ 0 256) (srand seed) = Some (perm, s)
    /\ length perm = 256%nat
    /\ g' = {| generator := s; p := perm ++ perm |}.
Proof.
  intros Hg. rewrite initPermutation_unfold.
  destruct (shuffle rand_state rand 255 (seqZ 0 256) (srand seed))
    as [[perm s] |] eqn:E; [| discriminate].
  pose proof (shuffle_length _ _ _ _ _ E) as Hlen. rewrite length_seqZ in Hlen.
  rewrite copy_loop by (assumption || lia). intros [= <-].
  exists perm, s. split; [reflexivity |]. split; [lia | reflexivity].
Qed.

(** [initPermutation] does not depend on the state it starts from. *)
Lemma initPermutation_independent (seed : Z) (g1 g2 : globals rand_state) :
  well_formed g1 -> well_formed g2 ->
  initPermutation seed g1 = initPermutation seed g2.
Proof.
  intros H1 H2. rewrite !initPermutation_unfold.
  destruct (shuffle rand_state rand 255 (seqZ 0 256) (srand seed))
    as [[perm s] |] eqn:E; [| reflexivity].
  apply shuffle_length in E. rewrite length_seqZ in E.
  rewrite !copy_loop by (assumption || lia). reflexivity.
Qed.

Lemma initPermutation_well_formed (seed : Z) (g g' : globals rand_state) :
  well_formed g -> initPermutation seed g = Some g' -> well_formed g'.
Proof.
  intros Hg H. destruct (initPermutation_Some seed g g' Hg H) as (perm & s & _ & Hlen & ->).
  unfold Noise.well_formed. simpl. rewrite length_app. lia.
Qed.

(** With a [rand] that keeps its contract, [initPermutation] stays inside
    its arrays and leaves 512 entries, all in 0..255. *)
Lemma initPermutation_total (seed : Z) (g : globals rand_state) :
  rand_nonneg rand_state rand -> well_formed g ->
  exists g', initPermutation seed g = Some g'
             /\ length (p g') = 512%nat /\ Forall byte_range (p g').
Proof.
  intros Hrand Hg. rewrite initPermutation_unfold.
  destruct (shuffle_in_bounds 255 (seqZ 0 256) (srand seed) Hrand)
    as (perm & s & -> & Hlen & Hperm).
  { rewrite length_seqZ. lia. }
  { exact identity_byte_range. }
  rewrite length_seqZ in Hlen.
  rewrite copy_loop by (assumption || lia).
  eexists. split; [reflexivity |]. simpl. split.
  - rewrite length_app. lia.
  - apply Forall_app. split; exact Hperm.
Qed.

End WithRand.

Lemma land_255_range (a : Z) : 0 <= Z.land a 255 <= 255.
Proof.
  assert (E : Z.land a 255 = a mod 256).
  { change 255 with (Z.ones 8). rewrite Z.land_ones by lia. reflexivity. }
  rewrite E. pose proof (Z.mod_pos_bound a 256 ltac:(lia)). lia.
Qed.

(** Every lookup of [perlin] is inside a table of 512 entries in 0..255. *)
Lemma perlin_reads (tbl : list Z) (x y : Q) :
  length tbl = 512%nat -> Forall byte_range tbl ->
  let X := Z.land (Qfloor x) 255 in
  let Y := Z.land (Qfloor y) 255 in
  exists pX pX1 : Z,
    read tbl X = Some pX /\ read tbl (X + 1) = Some pX1 /\
    Forall (fun i => 0 <= i <= 511)
      [X; X + 1; pX + Y; pX + Y + 1; pX1 + Y; pX1 + Y + 1] /\
    is_Some (perlin tbl x y).
Proof.
  intros Hlen Htbl X Y.
  pose proof (land_255_range (Qfloor x)) as HX. fold X in HX.
  pose proof (land_255_range (Qfloor y)) as HY. fold Y in HY.
  rewrite Forall_forall in Htbl.
  assert (Hread : forall i, 0 <= i <= 511 ->
    exists v, read tbl i = Some v /\ byte_range v).
  { intros i Hi. destruct (read_in_bounds tbl i) as (v & Hv & Hin); [lia |].
    exists v. split; [exact Hv | apply Htbl; exact Hin]. }
  destruct (Hread X) as (pX & EX & HpX); [lia |].
  destruct (Hread (X + 1)) as (pX1 & EX1 & HpX1); [lia |].
  unfold byte_range in HpX, HpX1.
  destruct (Hread (pX + Y)) as (pA & EA & _); [lia |].
  destruct (Hread (pX1 + Y)) as (pB & EB & _); [lia |].
  destruct (Hread (pX + Y + 1)) as (pA1 & EA1 & _); [lia |].
  destruct (Hread (pX1 + Y + 1)) as (pB1 & EB1 & _); [lia |].
  exists pX, pX1. split; [exact EX |]. split; [exact EX1 |]. split.
  - repeat (apply Forall_cons; split; [lia |]). apply Forall_nil. exact I.
  - unfold perlin. fold X. fold Y.
    rewrite EX. simpl. rewrite EX1. simpl. rewrite EA. simpl. rewrite EB. simpl.
    rewrite EA1. simpl. rewrite EB1. simpl. eexists. reflexivity.
Qed.

Section Texture.

Variable rand_state : Type.
Variable srand : Z -> rand_state.
Variable rand : rand_state -> Z * rand_state.

Local Abbreviation initPermutation := (Noise.initPermutation rand_state srand rand).
Local Abbreviation generatePerlinNoiseTexture :=
  (Noise.generatePerlinNoiseTexture rand_state srand rand).
Local Abbreviation well_formed := (Noise.well_formed rand_state).
Local Abbreviation grid_of := (Noise.grid_of rand_state).
Local Abbreviation globals_after := (Noise.globals_after rand_state).

Lemma pixel_total (tbl : list Z) (width height i j : Z) :
  length tbl = 512%nat -> Forall byte_range tbl ->
  exists value, pixel tbl width height i j = Some value.
Proof.
  intros Hlen Htbl. unfold pixel.
  destruct (perlin_reads tbl (inject_Z i / inject_Z width * 8)%Q
              (inject_Z j / inject_Z height * 8)%Q Hlen Htbl)
    as (_ & _ & _ & _ & _ & [v ->]).
  simpl. eexists. reflexivity.
Qed.

(** The two loops of [generatePerlinNoiseTexture] stay inside the texture. *)
Lemma texture_loops (tbl : list Z) (width height : Z) :
  length tbl = 512%nat -> Forall byte_range tbl ->
  0 <= width -> 0 <= height ->
  exists td,
    for_up (fun j td =>
      for_up (fun i td =>
                value ← pixel tbl width height i j;
                write td (j * width + i) value)
             0 (Z.to_nat width) td)
      0 (Z.to_nat height) (replicate (Z.to_nat (width * height)) 0) = Some td
    /\ length td = Z.to_nat (width * height).
Proof.
  intros Hlen Htbl Hw Hh.
  destruct (for_up_inv (fun _ td => length td = Z.to_nat (width * height))
    (fun j td =>
      for_up (fun i td =>
                value ← pixel tbl width height i j;
                write td (j * width + i) value)
             0 (Z.to_nat width) td)
    0 (Z.to_nat height) (replicate (Z.to_nat (width * height)) 0))
    as (td & E & Htd).
  - apply length_replicate.
  - intros j td Hj Htd.
    apply (for_up_inv (fun _ td => length td = Z.to_nat (width * height))).
    + exact Htd.
    + intros i t Hi Ht.
      destruct (pixel_total tbl width height i j Hlen Htbl) as [value ->]. simpl.
      rewrite write_in_bounds by (rewrite Ht; nia).
      eexists. split; [reflexivity |]. rewrite length_insert. exact Ht.
  - exists td. split; [exact E | exact Htd].
Qed.

Lemma generate_independent (width height seed : Z) (g1 g2 : globals rand_state) :
  well_formed g1 -> well_formed g2 ->
  generatePerlinNoiseTexture width height seed g1
  = generatePerlinNoiseTexture width height seed g2.
Proof.
  intros H1 H2. unfold Noise.generatePerlinNoiseTexture.
  rewrite (initPermutation_independent rand_state srand rand seed g1 g2 H1 H2).
  reflexivity.
Qed.

Lemma globals_after_well_formed (width height seed : Z) (g : globals rand_state) :
  well_formed g ->
  well_formed (globals_after (generatePerlinNoiseTexture width height seed g) g).
Proof.
  intros Hg. unfold Noise.generatePerlinNoiseTexture.
  destruct (initPermutation seed g) as [g' |] eqn:E; [| exact Hg].
  apply initPermutation_well_formed in E; [| exact Hg].
  destruct (vector_size_ok 1 (width * height)); [| exact Hg].
  match goal with |- context [for_up ?b ?lo ?n ?t] => destruct (for_up b lo n t) end;
    [exact E | exact Hg].
Qed.

Lemma generate_total (width height seed : Z) (g : globals rand_state) :
  rand_nonneg rand_state rand -> well_formed g ->
  0 <= width -> 0 <= height -> width * height < 2 ^ 31 ->
  exists td g', generatePerlinNoiseTexture width height seed g = Returns (td, g')
                /\ length td = Z.to_nat (width * height).
Proof.
  intros Hrand Hg Hw Hh Hwh. unfold Noise.generatePerlinNoiseTexture.
  destruct (initPermutation_total rand_state srand rand seed g Hrand Hg)
    as (g' & -> & Hlen & Htbl).
  rewrite VectorFacts.vector_size_ok_int by nia.
  destruct (texture_loops (p g') width height Hlen Htbl Hw Hh) as (td & -> & Htd).
  exists td, g'. split; [reflexivity | exact Htd].
Qed.

(** C9. Two calls of [Noise::generatePerlinNoiseTexture] with the same
    [(width, height, seed)] give the same grid: the grid does not depend on
    the process state the call starts from (the state of [rand] and the
    previous contents of the table [p]), in particular a second call made
    in the state the first one leaves returns the grid of the first.  With
    a [rand] that keeps its contract and non-negative [int] sizes the call
    does return a grid, of [width * height] bytes. *)
Theorem generatePerlinNoiseTexture_deterministic
  (width height seed : Z) (g1 g2 : globals rand_state) :
  well_formed g1 -> well_formed g2 ->
  grid_of (generatePerlinNoiseTexture width height seed g1)
  = grid_of (generatePerlinNoiseTexture width height seed g2)
  /\ grid_of (generatePerlinNoiseTexture width height seed
                (globals_after (generatePerlinNoiseTexture width height seed g1) g1))
     = grid_of (generatePerlinNoiseTexture width height seed g1)
  /\ (rand_nonneg rand_state rand ->
      0 <= width -> 0 <= height -> width * height < 2 ^ 31 ->
      exists grid,
        grid_of (generatePerlinNoiseTexture width height seed g1) = Returns grid
        /\ length grid = Z.to_nat (width * height)).
Proof.
  intros H1 H2. split; [| split].
  - rewrite (generate_independent width height seed g1 g2 H1 H2). reflexivity.
  - f_equal. apply generate_independent; [| exact H1].
    apply globals_after_well_formed. exact H1.
  - intros Hrand Hw Hh Hwh.
    destruct (generate_total width height seed g1 Hrand H1 Hw Hh Hwh)
      as (td & g' & -> & Htd).
    exists td. split; [reflexivity | exact Htd].
Qed.

(** C10. After [initPermutation] the table [p] has 512 entries, all in
    0..255, and every index [perlin] reads it at ([X], [X+1], [A], [A+1],
    [B], [B+1]) lies in 0..511, so that each lookup succeeds. *)
Theorem perlin_indices_in_bounds (seed : Z) (g : globals rand_state) (x y : Q) :
  rand_nonneg rand_state rand -> well_formed g ->
  exists g',
    initPermutation seed g = Some g'
    /\ length (p g') = 512%nat
    /\ Forall byte_range (p g')
    /\ let X := Z.land (Qfloor x) 255 in
       let Y := Z.land (Qfloor y) 255 in
       0 <= X <= 255 /\ 0 <= Y <= 255 /\
       exists pX pX1 : Z,
         read (p g') X = Some pX /\ read (p g') (X + 1) = Some pX1 /\
         let A := pX + Y in
         let B := pX1 + Y in
         Forall (fun i => 0 <= i <= 511) [X; X + 1; A; A + 1; B; B + 1] /\
         is_Some (perlin (p g') x y).
Proof.
  intros Hrand Hg.
  destruct (initPermutation_total rand_state srand rand seed g Hrand Hg)
    as (g' & E & Hlen & Htbl).
  exists g'. split; [exact E |]. split; [exact Hlen |]. split; [exact Htbl |].
  intros X Y. split; [apply land_255_range |]. split; [apply land_255_range |].
  exact (perlin_reads (p g') x y Hlen Htbl).
Qed.

End Texture.

Lemma lcg_rand_nonneg : rand_nonneg Z lcg_rand.
Proof.
  intros s. unfold lcg_rand. simpl.
  apply Z.mod_pos_bound. lia.
Defined.

Lemma generatePerlinNoiseTexture_deterministic_witness :
  Noise.well_formed Z zero_globals /\ Noise.well_formed Z used_globals /\
  let generate := Noise.generatePerlinNoiseTexture Z lcg_srand lcg_rand in
  Noise.grid_of Z (generate 3 2 7 zero_globals) = Noise.grid_of Z (generate 3 2 7 used_globals)
  /\ Noise.grid_of Z (generate 3 2 7
                        (Noise.globals_after Z (generate 3 2 7 zero_globals) zero_globals))
     = Noise.grid_of Z (generate 3 2 7 zero_globals)
  /\ (rand_nonneg Z lcg_rand ->
      0 <= 3 -> 0 <= 2 -> 3 * 2 < 2 ^ 31 ->
      exists grid,
        Noise.grid_of Z (generate 3 2 7 zero_globals) = Returns grid
        /\ length grid = Z.to_nat (3 * 2)).
Proof.
  split; [reflexivity |]. split; [reflexivity |].
  apply (generatePerlinNoiseTexture_deterministic Z lcg_srand lcg_rand 3 2 7
           zero_globals used_globals); reflexivity.
Defined.

Lemma perlin_indices_in_bounds_witness :
  rand_nonneg Z lcg_rand /\ Noise.well_formed Z zero_globals /\
  exists g',
    Noise.initPermutation Z lcg_srand lcg_rand 7 zero_globals = Some g'
    /\ length (p g') = 512%nat
    /\ Forall byte_range (p g')
    /\ let X := Z.land (Qfloor (-17 # 5)) 255 in
       let Y := Z.land (Qfloor (1023 # 4)) 255 in
       0 <= X <= 255 /\ 0 <= Y <= 255 /\
       exists pX pX1 : Z,
         read (p g') X = Some pX /\ read (p g') (X + 1) = Some pX1 /\
         let A := pX + Y in
         let B := pX1 + Y in
         Forall (fun i => 0 <= i <= 511) [X; X + 1; A; A + 1; B; B + 1] /\
         is_Some (perlin (p g') (-17 # 5) (1023 # 4)).
Proof.
  split; [exact lcg_rand_nonneg |]. split; [reflexivity |].
  apply (perlin_indices_in_bounds Z lcg_srand lcg_rand 7 zero_globals
           (-17 # 5) (1023 # 4)); [exact lcg_rand_nonneg | reflexivity].
Defined.

End NoiseFacts.

(** ** main.cpp: the bounding sphere and the generated spheres *)

Module CloudFacts.
Import Cloud.

Local Open Scope R_scope.

(** The running maximum of the second loop never decreases and dominates
    [dist_] of every sphere it has visited. *)
Lemma extend_radius_ge (c : vec3) (r : R) (s : Sphere) :
  r <= extend_radius c r s
  /\ vlength (vsub (center s) c) + radius s <= extend_radius c r s.
Proof.
  unfold extend_radius.
  destruct (Rgt_dec (vlength (vsub (center s) c) + radius s) r); lra.
Qed.

Lemma fold_extend_radius_mono (c : vec3) (spheres : list Sphere) (r : R) :
  r <= fold_left (extend_radius c) spheres r.
Proof.
  revert r. induction spheres as [| s spheres IH]; intros r; simpl.
  - lra.
  - pose proof (extend_radius_ge c r s) as [H _].
    specialize (IH (extend_radius c r s)). lra.
Qed.

Lemma fold_extend_radius_covers (c : vec3) (spheres : list Sphere) (r : R) (s : Sphere) :
  In s spheres ->
  vlength (vsub (center s) c) + radius s <= fold_left (extend_radius c) spheres r.
Proof.
  revert r. induction spheres as [| s0 spheres IH]; intros r Hin; simpl.
  - destruct Hin.
  - destruct Hin as [-> | Hin].
    + pose proof (extend_radius_ge c r s) as [_ H].
      pose proof (fold_extend_radius_mono c spheres (extend_radius c r s)). lra.
    + apply IH. exact Hin.
Qed.

(** C1. For a non-empty sphere set the sphere [B] that
    [computeBoundingSphere] returns contains every input sphere [s]:
    [distance(s.center, B.center) + s.radius <= B.radius] (exactly, hence
    up to every epsilon). *)
Theorem computeBoundingSphere_contains (spheres : list Sphere) (s : Sphere) :
  spheres <> [] -> In s spheres ->
  let B := computeBoundingSphere spheres in
  vlength (vsub (center s) (center B)) + radius s <= radius B.
Proof.
  intros _ Hin. unfold computeBoundingSphere.
  destruct (fold_left extend_bounds spheres (vec3_splat 1e9, vec3_splat (-1e9)))
    as [minP maxP].
  cbn [center radius].
  apply fold_extend_radius_covers. exact Hin.
Qed.

Lemma computeBoundingSphere_contains_witness :
  two_spheres <> [] /\
  In {| center := Vec3 3 0 0; radius := 2 |} two_spheres /\
  let B := computeBoundingSphere two_spheres in
  vlength (vsub (Vec3 3 0 0) (center B)) + 2 <= radius B.
Proof.
  split; [discriminate |]. split; [right; left; reflexivity |].
  apply (computeBoundingSphere_contains two_spheres
           {| center := Vec3 3 0 0; radius := 2 |}).
  - discriminate.
  - right; left; reflexivity.
Defined.

(** On the empty set both loops do nothing: the extrema keep their initial
    values and the sphere is built from them. *)
Lemma computeBoundingSphere_nil :
  computeBoundingSphere [] = {| center := Vec3 0 0 0; radius := 0 |}.
Proof.
  unfold computeBoundingSphere, vscale, vadd, vec3_splat. simpl.
  f_equal. f_equal; lra.
Qed.

(** C4, as stated, fails: on the empty set the call reports no
    [EmptyInput]; it returns the sphere built from the untouched extrema
    [1e9] and [-1e9]. *)
Lemma computeBoundingSphere_empty_no_error :
  computeBoundingSphere_call [] <> inr EmptyInput
  /\ computeBoundingSphere_call []
     = inl {| center := vscale 0.5 (vadd (vec3_splat 1e9) (vec3_splat (-1e9)));
              radius := 0 |}.
Proof.
  split; [discriminate | reflexivity].
Qed.

(** C4, amended. [computeBoundingSphere] called on an empty sphere set
    returns normally: the sphere with center [(0,0,0)], the midpoint of the
    untouched extrema, and radius 0. *)
Theorem computeBoundingSphere_empty :
  computeBoundingSphere_call [] = inl {| center := Vec3 0 0 0; radius := 0 |}.
Proof.
  unfold computeBoundingSphere_call. rewrite computeBoundingSphere_nil. reflexivity.
Qed.

(** [x / (x + y)] for two positive gamma draws lies strictly between 0
    and 1. *)
Lemma beta_fraction (x y : R) : 0 < x -> 0 < y -> 0 < x / (x + y) < 1.
Proof.
  intros Hx Hy.
  assert (Hinv : 0 < / (x + y)) by (apply Rinv_0_lt_compat; lra).
  assert (E : x / (x + y) * (x + y) = x) by (field; lra).
  unfold Rdiv in *. split; nra.
Qed.

(** The interpolated radius lies between its two bounds, whichever is the
    larger. *)
Lemma interpolation_between (m M br : R) :
  0 <= br <= 1 ->
  (M < m -> M <= m + br * (M - m) <= m)
  /\ (m <= M -> m <= m + br * (M - m) <= M).
Proof.
  intros Hbr. split; intros H; split; nra.
Qed.

Ltac split_min_max :=
  unfold Rmin, Rmax; repeat (destruct (Rle_dec _ _)); try lra.

Lemma max_radius_le_half (L x z y_base : R) :
  0 <= L -> max_radius L x z y_base <= L / 2.
Proof.
  intros HL. unfold max_radius.
  eapply Rle_trans; [apply Rmin_r | lra].
Qed.

Lemma max_radius_nonneg (L x z y_base : R) :
  0 <= x <= L -> 0 <= z <= L -> y_base <= L -> 0 <= max_radius L x z y_base.
Proof.
  intros Hx Hz Hy. unfold max_radius. split_min_max.
Qed.

Lemma min_radius_bounds (L base_radius : R) :
  0 < L -> base_radius <= L / 2 ->
  0 < 0.05 * L <= min_radius L base_radius /\ min_radius L base_radius <= L / 2.
Proof.
  intros HL Hb. unfold min_radius. split_min_max.
Qed.

Section Generator.

Variable engine : Type.
Variable uniform01 : engine -> R * engine.
Variable normal : R -> R -> engine -> R * engine.
Variable gamma : R -> R -> engine -> R * engine.
Variables L delta_ratio sigma_ratio alpha beta base_radius_ratio : R.

Local Abbreviation base_sphere :=
  (Cloud.base_sphere engine uniform01 L delta_ratio base_radius_ratio).
Local Abbreviation additional_sphere :=
  (Cloud.additional_sphere engine uniform01 normal gamma L delta_ratio sigma_ratio
     alpha beta).
Local Abbreviation additional_spheres :=
  (Cloud.additional_spheres engine uniform01 normal gamma L delta_ratio sigma_ratio
     alpha beta).
Local Abbreviation generateCloudSpheres :=
  (Cloud.generateCloudSpheres engine uniform01 normal gamma L delta_ratio sigma_ratio
     alpha beta base_radius_ratio).

Local Abbreviation generated := (Cloud.generated L delta_ratio).

Lemma additional_sphere_generated (base_radius : R) (gen : engine) :
  uniform01_in_range engine uniform01 -> gamma_positive engine gamma ->
  generated base_radius (fst (additional_sphere base_radius gen)).
Proof.
  intros Hu Hg. unfold Cloud.additional_sphere, betaRand.
  destruct (normal (L / 2) (sigma L sigma_ratio) gen) as [gx gen1].
  destruct (normal (L / 2) (sigma L sigma_ratio) gen1) as [gz gen2].
  pose proof (Hu gen2) as Hu2. destruct (uniform01 gen2) as [u gen3].
  pose proof (Hg alpha 1 gen3) as Ha. destruct (gamma alpha 1 gen3) as [a gen4].
  pose proof (Hg beta 1 gen4) as Hb. destruct (gamma beta 1 gen4) as [b gen5].
  cbn [fst] in *. exists u, (a / (a + b)).
  split; [exact Hu2 |].
  split; [pose proof (beta_fraction a b Ha Hb); lra |].
  unfold max_radius_of. cbn [center radius vx vy vz].
  split; [lra |]. split.
  - intros HL. split_min_max.
  - match goal with
    | |- context [max_radius L ?x ?z (?y + ?r - ?r)] =>
        replace (y + r - r) with y by lra
    end.
    reflexivity.
Qed.

(** The loop appends one sphere per iteration and keeps what it was given. *)
Lemma additional_spheres_all (P : Sphere -> Prop) (base_radius : R) :
  (forall gen, P (fst (additional_sphere base_radius gen))) ->
  forall (n : nat) (spheres : list Sphere) (gen : engine),
  exists rest,
    fst (additional_spheres n base_radius spheres gen) = spheres ++ rest
    /\ length rest = n /\ Forall P rest.
Proof.
  intros HP. induction n as [| n IH]; intros spheres gen; simpl.
  - exists []. rewrite app_nil_r. auto.
  - pose proof (HP gen) as Hs.
    destruct (additional_sphere base_radius gen) as [s gen1]. cbn [fst] in Hs.
    destruct (IH (spheres ++ [s]) gen1) as (rest & E & Hlen & Hrest).
    exists (s :: rest). split; [| split].
    + rewrite E, <- app_assoc. reflexivity.
    + simpl. rewrite Hlen. reflexivity.
    + constructor; assumption.
Qed.

(** With an [int] count that is not negative the call returns the base
    sphere followed by [N - 1] generated spheres. *)
Lemma generateCloudSpheres_returns (N : Z) (gen : engine) :
  uniform01_in_range engine uniform01 -> gamma_positive engine gamma ->
  (0 <= N < 2 ^ 31)%Z ->
  exists rest gen',
    generateCloudSpheres N gen = Returns (fst (base_sphere gen) :: rest, gen')
    /\ length rest = Z.to_nat (N - 1)
    /\ Forall (generated (radius (fst (base_sphere gen)))) rest.
Proof.
  intros Hu Hg HN. unfold Cloud.generateCloudSpheres.
  rewrite VectorFacts.vector_size_ok_int by (unfold sizeof_Sphere; lia).
  destruct (base_sphere gen) as [base gen1]. cbn [fst].
  destruct (additional_spheres_all (generated (radius base)) (radius base)
              (fun g => additional_sphere_generated (radius base) g Hu Hg)
              (Z.to_nat (N - 1)) [base] gen1) as (rest & E & Hlen & Hrest).
  destruct (additional_spheres (Z.to_nat (N - 1)) (radius base) [base] gen1)
    as [spheres gen2].
  cbn [fst] in E. subst spheres.
  exists rest, gen2. split; [reflexivity |]. split; assumption.
Qed.





(** C5, amended. For [N = 0] the call returns exactly one sphere, the base
    sphere; for a negative [int] [N] it returns nothing:
    [spheres.reserve(N)] throws [length_error]. *)
Theorem generateCloudSpheres_count_not_positive (N : Z) (gen : engine) :
  (N = 0%Z ->
   generateCloudSpheres N gen
   = Returns ([fst (base_sphere gen)], snd (base_sphere gen)))
  /\ ((- 2 ^ 31 <= N < 0)%Z -> generateCloudSpheres N gen = Throws length_error).
Proof.
  split.
  - intros ->. unfold Cloud.generateCloudSpheres.
    destruct (base_sphere gen) as [base gen1]. reflexivity.
  - intros HN. unfold Cloud.generateCloudSpheres.
    rewrite VectorFacts.vector_size_ok_negative by (unfold sizeof_Sphere; lia).
    reflexivity.
Qed.

End Generator.


Lemma const_uniform_in_range (u : R) :
  0 <= u <= 1 -> uniform01_in_range nat (const_uniform u).
Proof. intros Hu gen. exact Hu. Defined.

Lemma const_gamma_positive (g : R) :
  0 < g -> gamma_positive nat (const_gamma g).
Proof. intros Hg a b gen. exact Hg. Defined.





(** C5, as stated, fails. With [N = 0] the call returns the base sphere,
    not an empty set. *)
Lemma zero_count_returns_base_sphere :
  let result :=
    generateCloudSpheres_default (const_uniform 0) (const_normal 0) (const_gamma 1)
      10 0 0%nat in
  (exists base gen', result = Returns ([base], gen'))
  /\ ~ (exists gen', result = Returns ([], gen')).
Proof.
  split.
  - eexists _, _. reflexivity.
  - intros [gen' H]. discriminate H.
Qed.

Lemma generateCloudSpheres_count_not_positive_witness :
  (- 2 ^ 31 <= -1 < 0)%Z
  /\ generateCloudSpheres_default (const_uniform 0) (const_normal 0) (const_gamma 1)
       10 0 0%nat
     = Returns ([fst (base_sphere nat (const_uniform 0) 10 0.1 0.3 0%nat)],
                snd (base_sphere nat (const_uniform 0) 10 0.1 0.3 0%nat))
  /\ generateCloudSpheres_default (const_uniform 0) (const_normal 0) (const_gamma 1)
       10 (-1) 0%nat = Throws length_error.
Proof.
  split; [lia |]. split.
  - apply (generateCloudSpheres_count_not_positive nat (const_uniform 0)
             (const_normal 0) (const_gamma 1) 10 0.1 0.2 2 5 0.3 0 0%nat).
    reflexivity.
  - apply (generateCloudSpheres_count_not_positive nat (const_uniform 0)
             (const_normal 0) (const_gamma 1) 10 0.1 0.2 2 5 0.3 (-1) 0%nat).
    lia.
Defined.

End CloudFacts.

(** ** The fragment shader: early exits, density and transmittance *)

Module ShaderFacts.
Import FragmentShader.

Local Open Scope R_scope.

Lemma clamp_01 (x : R) : 0 <= clamp x 0 1 <= 1.
Proof.
  unfold clamp.
  pose proof (Rmax_r x 0). pose proof (Rmin_r (Rmax x 0) 1).
  split; [apply Rmin_glb; lra | lra].
Qed.

Lemma smoothstep_range (edge0 edge1 x : R) : 0 <= smoothstep edge0 edge1 x <= 1.
Proof.
  unfold smoothstep.
  pose proof (clamp_01 ((x - edge0) / (edge1 - edge0))) as H.
  set (t := clamp ((x - edge0) / (edge1 - edge0)) 0 1) in *.
  assert (Hlow : 0 <= t * t * (3 - 2 * t)).
  { apply Rmult_le_pos; nra. }
  assert (Hhigh : 0 <= (1 - t) * (1 - t) * (1 + 2 * t)).
  { apply Rmult_le_pos; nra. }
  split; [exact Hlow |].
  replace (t * t * (3 - 2 * t)) with (1 - (1 - t) * (1 - t) * (1 + 2 * t)) by ring.
  lra.
Qed.

(** Beer-Lambert attenuation over a non-negative optical depth. *)
Lemma exp_neg_le_1 (a : R) : 0 <= a -> 0 < exp (- a) <= 1.
Proof.
  intros Ha. split; [apply exp_pos |].
  destruct Ha as [Ha | <-].
  - left. rewrite <- exp_0. apply exp_increasing. lra.
  - rewrite Ropp_0, exp_0. lra.
Qed.

Lemma INR_STEPS_pos : 0 < INR STEPS.
Proof. apply lt_0_INR. unfold STEPS. lia. Qed.

Section Uniforms.

Variable iTime : R.
Variable uBoundingSphereCenter : vec3.
Variable uBoundingSphereRadius : R.
Variable uSphereCount : Z.
Variable uSpheres : Z -> vec4.
Variable uNoiseTex : vec2 -> vec4.

Local Abbreviation sdCloud := (FragmentShader.sdCloud uSphereCount uSpheres).
Local Abbreviation cloudDensity :=
  (FragmentShader.cloudDensity iTime uSphereCount uSpheres uNoiseTex).
Local Abbreviation ray_det :=
  (FragmentShader.ray_det uBoundingSphereCenter uBoundingSphereRadius).
Local Abbreviation ray_t1 :=
  (FragmentShader.ray_t1 uBoundingSphereCenter uBoundingSphereRadius).
Local Abbreviation ray_t2 :=
  (FragmentShader.ray_t2 uBoundingSphereCenter uBoundingSphereRadius).
Local Abbreviation tNear :=
  (FragmentShader.tNear uBoundingSphereCenter uBoundingSphereRadius).
Local Abbreviation marchStep :=
  (FragmentShader.marchStep uBoundingSphereCenter uBoundingSphereRadius).
Local Abbreviation march_body :=
  (FragmentShader.march_body iTime uBoundingSphereCenter uBoundingSphereRadius
     uSphereCount uSpheres uNoiseTex).
Local Abbreviation march :=
  (FragmentShader.march iTime uBoundingSphereCenter uBoundingSphereRadius
     uSphereCount uSpheres uNoiseTex).
Local Abbreviation shade :=
  (FragmentShader.shade iTime uBoundingSphereCenter uBoundingSphereRadius
     uSphereCount uSpheres uNoiseTex).
Local Abbreviation main :=
  (FragmentShader.main iTime uBoundingSphereCenter uBoundingSphereRadius
     uSphereCount uSpheres uNoiseTex).
Local Abbreviation camera :=
  (FragmentShader.camera uBoundingSphereCenter uBoundingSphereRadius).
Local Abbreviation ray_direction :=
  (FragmentShader.ray_direction uBoundingSphereRadius).

Lemma cloudDensity_range (p : vec3) : 0 <= cloudDensity p <= 1.
Proof.
  unfold FragmentShader.cloudDensity.
  destruct (Rgt_dec (sdCloud p) 0); [lra | apply smoothstep_range].
Qed.

(** C7. At a point strictly outside every cloud sphere, [sdCloud p > 0],
    the density is 0, for every time and every noise texture. *)
Theorem cloudDensity_zero_outside (p : vec3) :
  sdCloud p > 0 -> cloudDensity p = 0.
Proof.
  intros Hout. unfold FragmentShader.cloudDensity.
  destruct (Rgt_dec (sdCloud p) 0) as [_ | Hin]; [reflexivity | contradiction].
Qed.

(** C6. A primary ray that misses the bounding sphere ([det < 0]) or has
    the sphere behind it ([t2 < 0]) gets exactly the background color
    [(0.6, 0.6, 0.6, 1.0)]; every other ray gets the color composed from
    the 64-step marching loop, so these are the only exits before the loop.
    [main] shades the ray from the camera through the pixel. *)
Theorem shade_early_exits (ro rd : vec3) :
  (ray_det ro rd < 0 \/ ray_t2 ro rd < 0 -> shade ro rd = Vec4 0.6 0.6 0.6 1)
  /\ (~ ray_det ro rd < 0 -> ~ ray_t2 ro rd < 0 ->
      let st := march ro rd 64 in
      let finalColor := vadd (outColor st) (vscale (transmittance st) (vec3_splat 0.6)) in
      shade ro rd = Vec4 (vx finalColor) (vy finalColor) (vz finalColor) 1)
  /\ (forall vTexCoord, main vTexCoord = shade camera (ray_direction vTexCoord)).
Proof.
  split; [| split].
  - intros H. unfold FragmentShader.shade.
    destruct (Rlt_dec (ray_det ro rd) 0) as [_ | Hdet]; [reflexivity |].
    destruct (Rlt_dec (ray_t2 ro rd) 0) as [_ | Ht2]; [reflexivity |].
    destruct H; contradiction.
  - intros Hdet Ht2. unfold FragmentShader.shade.
    destruct (Rlt_dec (ray_det ro rd) 0) as [H | _]; [contradiction |].
    destruct (Rlt_dec (ray_t2 ro rd) 0) as [H | _]; [contradiction |].
    reflexivity.
  - intros vTexCoord. reflexivity.
Qed.

Lemma marchStep_nonneg (ro rd : vec3) :
  ~ ray_t2 ro rd < 0 -> 0 <= marchStep ro rd.
Proof.
  intros Ht2. unfold FragmentShader.marchStep, FragmentShader.tFar, FragmentShader.tNear.
  assert (H12 : ray_t1 ro rd <= ray_t2 ro rd).
  { unfold FragmentShader.ray_t1, FragmentShader.ray_t2.
    pose proof (sqrt_pos (ray_det ro rd)). lra. }
  assert (Hmax : Rmax (ray_t1 ro rd) 0 <= ray_t2 ro rd).
  { apply Rmax_lub; lra. }
  unfold Rdiv. apply Rmult_le_pos; [lra |].
  left. apply Rinv_0_lt_compat. exact INR_STEPS_pos.
Qed.

(** One step of the loop either keeps the transmittance or multiplies it
    by the attenuation of a density above the threshold. *)
Lemma march_body_transmittance (ro rd : vec3) (i : nat) (st : march_state) :
  transmittance (march_body ro rd i st) = transmittance st
  \/ exists dens,
       dens > 0.001
       /\ transmittance (march_body ro rd i st)
          = transmittance st * exp (- (dens * (sigma_a + sigma_s) * marchStep ro rd)).
Proof.
  unfold FragmentShader.march_body.
  destruct (stopped st); [left; reflexivity |].
  match goal with
  | |- context [Rgt_dec ?d 0.001] => destruct (Rgt_dec d 0.001) as [Hd | Hd]
  end; [| left; reflexivity].
  right. eexists. split; [exact Hd |]. reflexivity.
Qed.

Lemma march_body_le (ro rd : vec3) (i : nat) (st : march_state) :
  0 <= marchStep ro rd -> 0 <= transmittance st ->
  0 <= transmittance (march_body ro rd i st) <= transmittance st.
Proof.
  intros Hstep HT.
  destruct (march_body_transmittance ro rd i st) as [-> | (dens & Hd & ->)]; [lra |].
  assert (Ha : 0 <= dens * (sigma_a + sigma_s) * marchStep ro rd).
  { unfold sigma_a, sigma_s. apply Rmult_le_pos; [lra | exact Hstep]. }
  pose proof (exp_neg_le_1 _ Ha). nra.
Qed.

Lemma march_transmittance_nonneg (ro rd : vec3) (k : nat) :
  0 <= marchStep ro rd -> 0 <= transmittance (march ro rd k).
Proof.
  intros Hstep. induction k as [| k IH]; simpl.
  - lra.
  - apply march_body_le; assumption.
Qed.

(** C8. On a ray that enters the marching loop the transmittance starts
    at 1 and does not increase from one of the 64 steps to the next: a step
    keeps it or multiplies it by [exp(-density * (sigma_a + sigma_s) *
    marchStep)] with a density above 0.001 and [marchStep >= 0]; the
    density is never negative. *)
Theorem transmittance_non_increasing (ro rd : vec3) :
  ~ ray_det ro rd < 0 -> ~ ray_t2 ro rd < 0 ->
  transmittance (march ro rd 0) = 1
  /\ 0 <= marchStep ro rd
  /\ (forall p, 0 <= cloudDensity p)
  /\ forall k, (k < STEPS)%nat ->
       0 <= transmittance (march ro rd (S k)) <= transmittance (march ro rd k)
       /\ (transmittance (march ro rd (S k)) = transmittance (march ro rd k)
           \/ exists dens,
                dens > 0.001
                /\ transmittance (march ro rd (S k))
                   = transmittance (march ro rd k)
                     * exp (- (dens * (sigma_a + sigma_s) * marchStep ro rd))).
Proof.
  intros _ Ht2. pose proof (marchStep_nonneg ro rd Ht2) as Hstep.
  split; [reflexivity |]. split; [exact Hstep |]. split.
  - intros p. apply cloudDensity_range.
  - intros k _. split.
    + apply march_body_le; [exact Hstep |].
      apply march_transmittance_nonneg. exact Hstep.
    + apply march_body_transmittance.
Qed.

End Uniforms.

Lemma sdCloud_unit_scene : sdCloud 1 unit_scene_spheres (Vec3 3 0 0) = 2.
Proof.
  unfold sdCloud. change (Z.to_nat 1) with 1%nat. cbn [sdCloud_loop].
  unfold unit_scene_spheres, xyz, vlength, dot, vsub. cbn [vx vy vz x4 y4 z4 w4].
  replace ((3 - 0) * (3 - 0) + (0 - 0) * (0 - 0) + (0 - 0) * (0 - 0)) with (3 * 3)
    by ring.
  rewrite sqrt_square by lra. rewrite Rmin_right by lra. lra.
Defined.

Lemma cloudDensity_zero_outside_witness :
  sdCloud 1 unit_scene_spheres (Vec3 3 0 0) > 0
  /\ cloudDensity 0 1 unit_scene_spheres white_texture (Vec3 3 0 0) = 0.
Proof.
  assert (H : sdCloud 1 unit_scene_spheres (Vec3 3 0 0) > 0).
  { rewrite sdCloud_unit_scene. lra. }
  split; [exact H |].
  exact (cloudDensity_zero_outside 0 1 unit_scene_spheres white_texture (Vec3 3 0 0) H).
Defined.

Lemma ray_det_sideways : ray_det origin 1 eye sideways = -3.
Proof.
  unfold ray_det, ray_b, ray_c2, dot, vsub, origin, eye, sideways.
  cbn [vx vy vz]. ring.
Defined.

Lemma ray_det_away : ray_det origin 1 eye away_from_sphere = 1.
Proof.
  unfold ray_det, ray_b, ray_c2, dot, vsub, origin, eye, away_from_sphere.
  cbn [vx vy vz]. ring.
Defined.

Lemma ray_t2_away : ray_t2 origin 1 eye away_from_sphere = -1.
Proof.
  unfold ray_t2. rewrite ray_det_away, sqrt_1.
  unfold ray_b, dot, vsub, origin, eye, away_from_sphere. cbn [vx vy vz]. ring.
Defined.

Lemma ray_det_toward : ray_det origin 1 eye toward_sphere = 1.
Proof.
  unfold ray_det, ray_b, ray_c2, dot, vsub, origin, eye, toward_sphere.
  cbn [vx vy vz]. ring.
Defined.

Lemma ray_t2_toward : ray_t2 origin 1 eye toward_sphere = 3.
Proof.
  unfold ray_t2. rewrite ray_det_toward, sqrt_1.
  unfold ray_b, dot, vsub, origin, eye, toward_sphere. cbn [vx vy vz]. ring.
Defined.

Lemma shade_early_exits_witness :
  ray_det origin 1 eye sideways < 0
  /\ shade 0 origin 1 1 unit_scene_spheres white_texture eye sideways
     = Vec4 0.6 0.6 0.6 1
  /\ ray_t2 origin 1 eye away_from_sphere < 0
  /\ shade 0 origin 1 1 unit_scene_spheres white_texture eye away_from_sphere
     = Vec4 0.6 0.6 0.6 1
  /\ ~ ray_det origin 1 eye toward_sphere < 0
  /\ ~ ray_t2 origin 1 eye toward_sphere < 0
  /\ let st := march 0 origin 1 1 unit_scene_spheres white_texture eye toward_sphere 64 in
     let finalColor := vadd (outColor st) (vscale (transmittance st) (vec3_splat 0.6)) in
     shade 0 origin 1 1 unit_scene_spheres white_texture eye toward_sphere
     = Vec4 (vx finalColor) (vy finalColor) (vz finalColor) 1.
Proof.
  assert (Hmiss : ray_det origin 1 eye sideways < 0).
  { rewrite ray_det_sideways. lra. }
  assert (Hbehind : ray_t2 origin 1 eye away_from_sphere < 0).
  { rewrite ray_t2_away. lra. }
  assert (Hdet : ~ ray_det origin 1 eye toward_sphere < 0).
  { rewrite ray_det_toward. lra. }
  assert (Ht2 : ~ ray_t2 origin 1 eye toward_sphere < 0).
  { rewrite ray_t2_toward. lra. }
  split; [exact Hmiss |]. split.
  { apply (shade_early_exits 0 origin 1 1 unit_scene_spheres white_texture eye sideways).
    left. exact Hmiss. }
  split; [exact Hbehind |]. split.
  { apply (shade_early_exits 0 origin 1 1 unit_scene_spheres white_texture eye
             away_from_sphere).
    right. exact Hbehind. }
  split; [exact Hdet |]. split; [exact Ht2 |].
  apply (shade_early_exits 0 origin 1 1 unit_scene_spheres white_texture eye
           toward_sphere); assumption.
Defined.

Lemma transmittance_non_increasing_witness :
  ~ ray_det origin 1 eye toward_sphere < 0
  /\ ~ ray_t2 origin 1 eye toward_sphere < 0
  /\ let march := march 0 origin 1 1 unit_scene_spheres white_texture eye toward_sphere in
     transmittance (march 0%nat) = 1
     /\ 0 <= transmittance (march 64%nat) <= transmittance (march 63%nat).
Proof.
  assert (Hdet : ~ ray_det origin 1 eye toward_sphere < 0).
  { rewrite ray_det_toward. lra. }
  assert (Ht2 : ~ ray_t2 origin 1 eye toward_sphere < 0).
  { rewrite ray_t2_toward. lra. }
  split; [exact Hdet |]. split; [exact Ht2 |].
  destruct (transmittance_non_increasing 0 origin 1 1 unit_scene_spheres white_texture
              eye toward_sphere Hdet Ht2) as (Hstart & _ & _ & Hsteps).
  split; [exact Hstart |].
  apply (Hsteps 63%nat). unfold STEPS. lia.
Defined.

End ShaderFacts.

(** ** Noise.cpp: the values of the noise and the layout of the texture *)

Module NoiseMore.
Import Noise NoiseFacts.

Local Open Scope Q_scope.

Lemma Qsquare_nonneg (x : Q) : 0 <= x * x.
Proof.
  destruct (Qlt_le_dec x 0) as [H | H].
  - assert (E : x * x == (- x) * (- x)) by ring.
    rewrite E. apply Qmult_le_0_compat; lra.
  - apply Qmult_le_0_compat; assumption.
Qed.

Lemma fade_range (t : Q) : 0 <= t <= 1 -> 0 <= fade t <= 1.
Proof.
  intros [H0 H1]. unfold fade.
  assert (Hq : 0 <= t * (t * 6 - 15) + 10) by nra.
  assert (Hq' : 0 <= (1 - t) * ((1 - t) * 6 - 15) + 10) by nra.
  assert (Ht3 : 0 <= t * t * t) by (apply Qmult_le_0_compat; nra).
  assert (Hs3 : 0 <= (1 - t) * (1 - t) * (1 - t)) by (apply Qmult_le_0_compat; nra).
  assert (E : t * t * t * (t * (t * 6 - 15) + 10)
              == 1 - (1 - t) * (1 - t) * (1 - t) * ((1 - t) * ((1 - t) * 6 - 15) + 10))
    by ring.
  assert (Hs : 0 <= (1 - t) * (1 - t) * (1 - t) * ((1 - t) * ((1 - t) * 6 - 15) + 10))
    by (apply Qmult_le_0_compat; assumption).
  split; [apply Qmult_le_0_compat; assumption | lra].
Qed.

(** Every gradient is one of the four diagonals: its value is bounded by
    the sum of the bounds of the two offsets. *)
Lemma grad_bound (hash : Z) (x y X Y : Q) :
  - X <= x <= X -> - Y <= y <= Y -> - (X + Y) <= grad hash x y <= X + Y.
Proof.
  intros Hx Hy. unfold grad.
  destruct (Z.land hash 7 <? 4)%Z;
    destruct (Z.land (Z.land hash 7) 1 =? 0)%Z;
    destruct (Z.land (Z.land hash 7) 2 =? 0)%Z; lra.
Qed.

Lemma lerp_bound (t a b A B : Q) :
  0 <= t <= 1 -> - A <= a <= A -> - B <= b <= B ->
  - ((1 - t) * A + t * B) <= lerp t a b <= (1 - t) * A + t * B.
Proof.
  intros Ht Ha Hb. unfold lerp.
  assert (H1 : 0 <= (1 - t) * (A - a)) by (apply Qmult_le_0_compat; lra).
  assert (H2 : 0 <= (1 - t) * (A + a)) by (apply Qmult_le_0_compat; lra).
  assert (H3 : 0 <= t * (B - b)) by (apply Qmult_le_0_compat; lra).
  assert (H4 : 0 <= t * (B + b)) by (apply Qmult_le_0_compat; lra).
  split; nra.
Qed.

(** The faded weight moves an offset toward the nearer lattice line: the
    weighted distance to the two lines is at most one half. *)
Lemma fade_half (a : Q) :
  0 <= a <= 1 -> (1 - fade a) * a + fade a * (1 - a) <= 1 # 2.
Proof.
  intros Ha. unfold fade.
  assert (Hq : 0 <= 6 * (a * a) * ((1 - a) * (1 - a)) + 2 * a * (1 - a) + 1).
  { assert (0 <= (a * a) * ((1 - a) * (1 - a))) by (apply Qmult_le_0_compat; nra).
    nra. }
  assert (Hsq : 0 <= (a - (1 # 2)) * (a - (1 # 2))) by apply Qsquare_nonneg.
  assert (H : 0 <= 2 * ((a - (1 # 2)) * (a - (1 # 2)))
                   * (6 * (a * a) * ((1 - a) * (1 - a)) + 2 * a * (1 - a) + 1)).
  { apply Qmult_le_0_compat; [lra | exact Hq]. }
  assert (E : (1 # 2) - ((1 - a * a * a * (a * (a * 6 - 15) + 10)) * a
                         + a * a * a * (a * (a * 6 - 15) + 10) * (1 - a))
              == 2 * ((a - (1 # 2)) * (a - (1 # 2)))
                 * (6 * (a * a) * ((1 - a) * (1 - a)) + 2 * a * (1 - a) + 1))
    by ring.
  lra.
Qed.

Lemma fraction_range (x : Q) : 0 <= x - inject_Z (Qfloor x) <= 1.
Proof.
  pose proof (Qfloor_le x) as H1. pose proof (Qlt_floor x) as H2.
  rewrite inject_Z_plus in H2. change (inject_Z 1) with 1 in H2.
  split; lra.
Qed.

(** The value [perlin] computes, with the four hashed corners named. *)
Lemma perlin_value (tbl : list Z) (x y : Q) :
  length tbl = 512%nat -> Forall byte_range tbl ->
  exists pA pB pA1 pB1 : Z,
    let a := x - inject_Z (Qfloor x) in
    let b := y - inject_Z (Qfloor y) in
    perlin tbl x y
    = Some (lerp (fade b)
              (lerp (fade a) (grad pA a b) (grad pB (a - 1) b))
              (lerp (fade a) (grad pA1 a (b - 1)) (grad pB1 (a - 1) (b - 1)))).
Proof.
  intros Hlen Htbl.
  pose proof (land_255_range (Qfloor x)) as HX.
  pose proof (land_255_range (Qfloor y)) as HY.
  rewrite Forall_forall in Htbl.
  assert (Hread : forall i, (0 <= i <= 511)%Z ->
            exists v, read tbl i = Some v /\ byte_range v).
  { intros i Hi. destruct (read_in_bounds tbl i) as (v & Hv & Hin); [lia |].
    exists v. split; [exact Hv | apply Htbl; exact Hin]. }
  destruct (Hread (Z.land (Qfloor x) 255)) as (pX & EX & HpX); [lia |].
  destruct (Hread (Z.land (Qfloor x) 255 + 1)%Z) as (pX1 & EX1 & HpX1); [lia |].
  unfold byte_range in HpX, HpX1.
  destruct (Hread (pX + Z.land (Qfloor y) 255)%Z) as (pA & EA & _); [lia |].
  destruct (Hread (pX1 + Z.land (Qfloor y) 255)%Z) as (pB & EB & _); [lia |].
  destruct (Hread (pX + Z.land (Qfloor y) 255 + 1)%Z) as (pA1 & EA1 & _); [lia |].
  destruct (Hread (pX1 + Z.land (Qfloor y) 255 + 1)%Z) as (pB1 & EB1 & _); [lia |].
  exists pA, pB, pA1, pB1. unfold perlin.
  rewrite EX. simpl. rewrite EX1. simpl. rewrite EA. simpl. rewrite EB. simpl.
  rewrite EA1. simpl. rewrite EB1. simpl. reflexivity.
Qed.

(** The interpolated value of four corner gradients at offsets [(a, b)]
    of the unit square lies between -1 and 1. *)
Lemma noise_value_bound (pA pB pA1 pB1 : Z) (a b : Q) :
  0 <= a <= 1 -> 0 <= b <= 1 ->
  - (1) <= lerp (fade b)
             (lerp (fade a) (grad pA a b) (grad pB (a - 1) b))
             (lerp (fade a) (grad pA1 a (b - 1)) (grad pB1 (a - 1) (b - 1)))
        <= 1.
Proof.
  intros Ha Hb.
  pose proof (fade_range a Ha) as Hu. pose proof (fade_range b Hb) as Hv.
  pose proof (fade_half a Ha) as Hma. pose proof (fade_half b Hb) as Hmb.
  pose proof (grad_bound pA a b a b ltac:(lra) ltac:(lra)) as G00.
  pose proof (grad_bound pB (a - 1) b (1 - a) b ltac:(lra) ltac:(lra)) as G10.
  pose proof (grad_bound pA1 a (b - 1) a (1 - b) ltac:(lra) ltac:(lra)) as G01.
  pose proof (grad_bound pB1 (a - 1) (b - 1) (1 - a) (1 - b) ltac:(lra) ltac:(lra))
    as G11.
  pose proof (lerp_bound (fade a) _ _ _ _ Hu G00 G10) as L0.
  pose proof (lerp_bound (fade a) _ _ _ _ Hu G01 G11) as L1.
  pose proof (lerp_bound (fade b) _ _ _ _ Hv L0 L1) as L.
  assert (Esum :
    (1 - fade b) * ((1 - fade a) * (a + b) + fade a * (1 - a + b))
    + fade b * ((1 - fade a) * (a + (1 - b)) + fade a * (1 - a + (1 - b)))
    == ((1 - fade a) * a + fade a * (1 - a))
       + ((1 - fade b) * b + fade b * (1 - b))) by ring.
  rewrite Esum in L. lra.
Qed.

(** X2. Over a table of 512 bytes [perlin] returns a value between -1 and
    1, at every point. *)
Theorem perlin_range (tbl : list Z) (x y : Q) :
  length tbl = 512%nat -> Forall byte_range tbl ->
  exists r, perlin tbl x y = Some r /\ - (1) <= r <= 1.
Proof.
  intros Hlen Htbl.
  destruct (perlin_value tbl x y Hlen Htbl) as (pA & pB & pA1 & pB1 & E).
  cbv zeta in E. eexists. split; [exact E |].
  apply noise_value_bound; apply fraction_range.
Qed.

Lemma lerp_zero (t a b : Q) : t == 0 -> lerp t a b == a.
Proof. intros Ht. unfold lerp. rewrite Ht. ring. Qed.

Lemma fade_zero (t : Q) : t == 0 -> fade t == 0.
Proof. intros Ht. unfold fade. rewrite Ht. ring. Qed.

Lemma offset_zero (x : Q) : x == inject_Z (Qfloor x) -> x - inject_Z (Qfloor x) == 0.
Proof. intros H. lra. Qed.

(** The interpolated value is zero at offset [(0, 0)]. *)
Lemma noise_value_lattice (pA pB pA1 pB1 : Z) (a b : Q) :
  a == 0 -> b == 0 ->
  lerp (fade b)
    (lerp (fade a) (grad pA a b) (grad pB (a - 1) b))
    (lerp (fade a) (grad pA1 a (b - 1)) (grad pB1 (a - 1) (b - 1))) == 0.
Proof.
  intros Ha Hb.
  rewrite (lerp_zero (fade b)) by (apply fade_zero; exact Hb).
  rewrite (lerp_zero (fade a)) by (apply fade_zero; exact Ha).
  pose proof (grad_bound pA a b 0 0 ltac:(lra) ltac:(lra)). lra.
Qed.

(** X3. At a lattice point, where both coordinates are integers, [perlin]
    is zero whatever the table holds. *)
Theorem perlin_lattice (tbl : list Z) (x y : Q) :
  length tbl = 512%nat -> Forall byte_range tbl ->
  x == inject_Z (Qfloor x) -> y == inject_Z (Qfloor y) ->
  exists r, perlin tbl x y = Some r /\ r == 0.
Proof.
  intros Hlen Htbl Hx Hy.
  destruct (perlin_value tbl x y Hlen Htbl) as (pA & pB & pA1 & pB1 & E).
  cbv zeta in E. eexists. split; [exact E |].
  apply noise_value_lattice; lra.
Qed.

Lemma perlin_lattice_witness :
  length (replicate 512 7%Z) = 512%nat /\ Forall byte_range (replicate 512 7%Z) /\
  3 == inject_Z (Qfloor 3) /\ -2 == inject_Z (Qfloor (-2)) /\
  exists r, perlin (replicate 512 7%Z) 3 (-2) = Some r /\ r == 0.
Proof.
  assert (Hlen : length (replicate 512 7%Z) = 512%nat) by reflexivity.
  assert (Htbl : Forall byte_range (replicate 512 7%Z)).
  { apply Forall_replicate. unfold byte_range. lia. }
  split; [exact Hlen |]. split; [exact Htbl |].
  split; [reflexivity |]. split; [reflexivity |].
  apply (perlin_lattice (replicate 512 7%Z) 3 (-2) Hlen Htbl); reflexivity.
Defined.

Lemma perlin_range_witness :
  length (replicate 512 7%Z) = 512%nat /\ Forall byte_range (replicate 512 7%Z) /\
  exists r, perlin (replicate 512 7%Z) (7 # 3) (-5 # 2) = Some r /\ - (1) <= r <= 1.
Proof.
  assert (Hlen : length (replicate 512 7%Z) = 512%nat) by reflexivity.
  assert (Htbl : Forall byte_range (replicate 512 7%Z)).
  { apply Forall_replicate. unfold byte_range. lia. }
  split; [exact Hlen |]. split; [exact Htbl |].
  exact (perlin_range (replicate 512 7%Z) (7 # 3) (-5 # 2) Hlen Htbl).
Defined.

Lemma Qtruncate_nonneg (q : Q) : 0 <= q -> Qtruncate q = Qfloor q.
Proof.
  intros Hq. unfold Qtruncate.
  destruct (Qle_bool 0 q) eqn:E; [reflexivity |].
  apply Qle_bool_iff in Hq. congruence.
Qed.

(** A value of the unit interval scaled to a byte: the clamp and the
    conversion to [unsigned char] leave the rounded-down value. *)
Lemma unit_to_uchar (q : Q) :
  0 <= q <= 1 ->
  to_uchar (Qmin (Qmax q 0) 1 * 255) = Qfloor (q * 255)
  /\ (0 <= Qfloor (q * 255) <= 255)%Z.
Proof.
  intros Hq.
  assert (Hlow : (0 <= Qfloor (q * 255))%Z).
  { exact (Qfloor_resp_le 0 (q * 255) ltac:(lra)). }
  assert (Hhigh : (Qfloor (q * 255) <= 255)%Z).
  { exact (Qfloor_resp_le (q * 255) 255 ltac:(lra)). }
  split; [| lia].
  assert (Emax : Qmax q 0 == q) by (apply Q.max_l; lra).
  assert (Emin : Qmin (Qmax q 0) 1 == q).
  { rewrite Q.min_l; [exact Emax | rewrite Emax; lra]. }
  unfold to_uchar. rewrite Qtruncate_nonneg by (rewrite Emin; lra).
  rewrite Emin. apply Z.mod_small. lia.
Qed.

(** The byte of one pixel: the noise value mapped from [-1, 1] to
    [0, 255] and rounded down. *)
Lemma pixel_value (tbl : list Z) (width height i j : Z) :
  length tbl = 512%nat -> Forall byte_range tbl ->
  exists r,
    perlin tbl (inject_Z i / inject_Z width * 8) (inject_Z j / inject_Z height * 8)
    = Some r
    /\ pixel tbl width height i j = Some (Qfloor ((r + 1) / 2 * 255))
    /\ (0 <= Qfloor ((r + 1) / 2 * 255) <= 255)%Z.
Proof.
  intros Hlen Htbl.
  destruct (perlin_value tbl (inject_Z i / inject_Z width * 8)
              (inject_Z j / inject_Z height * 8) Hlen Htbl)
    as (pA & pB & pA1 & pB1 & E).
  cbv zeta in E. eexists. split; [exact E |].
  match type of E with _ = Some ?v => set (r := v) in * end.
  assert (Hr : - (1) <= r <= 1) by (apply noise_value_bound; apply fraction_range).
  assert (Hq : (r + 1) / 2 == (r + 1) * (1 # 2)) by field.
  destruct (unit_to_uchar ((r + 1) / 2)) as [Hbyte Hrange].
  { rewrite Hq. lra. }
  split; [| exact Hrange].
  unfold pixel. rewrite E.
  change (Some r ≫= ?f) with (f r). cbv beta zeta.
  rewrite Hbyte. reflexivity.
Qed.

Local Open Scope Z_scope.

(** The texture is stored row by row: after the loops the cell
    [j * width + i] holds the byte of pixel [(i, j)]. *)
Lemma texture_rows (tbl : list Z) (width height : Z) :
  length tbl = 512%nat -> Forall byte_range tbl ->
  0 <= width -> 0 <= height ->
  exists td,
    for_up (fun j td =>
      for_up (fun i td =>
                value ← pixel tbl width height i j;
                write td (j * width + i) value)
             0 (Z.to_nat width) td)
      0 (Z.to_nat height) (replicate (Z.to_nat (width * height)) 0) = Some td
    /\ length td = Z.to_nat (width * height)
    /\ forall i j, 0 <= i < width -> 0 <= j < height ->
         td !! Z.to_nat (j * width + i) = pixel tbl width height i j.
Proof.
  intros Hlen Htbl Hw Hh.
  destruct (for_up_inv
    (fun j td => length td = Z.to_nat (width * height) /\
       forall i' j', 0 <= i' < width -> 0 <= j' < j ->
         td !! Z.to_nat (j' * width + i') = pixel tbl width height i' j')
    (fun j td =>
      for_up (fun i td =>
                value ← pixel tbl width height i j;
                write td (j * width + i) value)
             0 (Z.to_nat width) td)
    0 (Z.to_nat height) (replicate (Z.to_nat (width * height)) 0))
    as (td & E & Htd & Hcells).
  - split; [apply length_replicate | intros; lia].
  - intros j td Hj [Htd Hrows].
    destruct (for_up_inv
      (fun i td => length td = Z.to_nat (width * height) /\
         forall i' j', 0 <= i' < width -> (0 <= j' < j \/ (j' = j /\ i' < i)) ->
           td !! Z.to_nat (j' * width + i') = pixel tbl width height i' j')
      (fun i td =>
                value ← pixel tbl width height i j;
                write td (j * width + i) value)
      0 (Z.to_nat width) td) as (td' & E' & Htd' & Hrow).
    + split; [exact Htd |]. intros i' j' Hi' [Hj' | [-> Hlt]]; [| lia].
      apply Hrows; assumption.
    + intros i t Hi [Ht Hdone].
      destruct (pixel_value tbl width height i j Hlen Htbl) as (r & _ & Ev & _).
      rewrite Ev. change (Some ?v ≫= ?f) with (f v). cbv beta.
      rewrite write_in_bounds by (rewrite Ht; nia).
      eexists. split; [reflexivity |]. split; [rewrite length_insert; exact Ht |].
      intros i' j' Hi' Hcase.
      destruct (decide (j' = j /\ i' = i)) as [[-> ->] | Hne].
      * rewrite list_lookup_insert_eq by (rewrite Ht; nia). symmetry. exact Ev.
      * rewrite list_lookup_insert_ne by nia. apply Hdone; [exact Hi' | lia].
    + exists td'. split; [exact E' |]. split; [exact Htd' |].
      intros i' j' Hi' Hj'. apply Hrow; [exact Hi' |].
      destruct (decide (j' = j)) as [-> | Hne]; [right; lia | left; lia].
  - exists td. split; [exact E |]. split; [exact Htd |].
    intros i j Hi Hj. apply Hcells; lia.
Qed.

(** A pixel whose scaled coordinate is [8 * i / width] with [width]
    dividing 8 lies on a lattice line. *)
Lemma lattice_coordinate (i width : Z) :
  0 < width -> 8 mod width = 0 ->
  let x := (inject_Z i / inject_Z width * 8)%Q in
  (x == inject_Z (Qfloor x))%Q.
Proof.
  intros Hw Hd x.
  assert (E8 : 8 = width * (8 / width)) by (apply Z.div_exact; lia).
  assert (Ex : (x == inject_Z (i * (8 / width)))%Q).
  { unfold x. rewrite inject_Z_mult.
    assert (E8q : (8 == inject_Z width * inject_Z (8 / width))%Q).
    { rewrite <- inject_Z_mult, <- E8. reflexivity. }
    rewrite E8q. field.
    intros H. apply (inject_Z_injective width 0) in H. lia. }
  rewrite Ex at 2. rewrite Qfloor_Z. exact Ex.
Qed.

Lemma for_up_skip {St : Type} (body : Z -> St -> option St) (lo : Z) (n : nat) (s : St) :
  (forall i t, body i t = Some t) -> for_up body lo n s = Some s.
Proof.
  intros H. revert lo. induction n as [| n IH]; intros lo; simpl; [reflexivity |].
  rewrite H. simpl. apply IH.
Qed.

Lemma Z2Nat_nonpos (n : Z) : n <= 0 -> Z.to_nat n = 0%nat.
Proof. lia. Qed.

Lemma swap_Permutation (a a' : list Z) (i j : Z) :
  swap a i j = Some a' -> a' ≡ₚ a.
Proof.
  unfold swap. intros H.
  destruct (read a i) as [vi |] eqn:Ei; simpl in H; [| discriminate].
  destruct (read a j) as [vj |] eqn:Ej; simpl in H; [| discriminate].
  destruct (write a i vj) as [a1 |] eqn:E1; simpl in H; [| discriminate].
  apply write_Some in E1 as [Hi ->]. apply write_Some in H as [Hj ->].
  rewrite read_lookup in Ei by lia. rewrite read_lookup in Ej by lia.
  apply Permutation_insert_swap; assumption.
Qed.

Lemma shuffle_Permutation (rand_state : Type) (rand : rand_state -> Z * rand_state)
  (i : nat) (l l' : list Z) (s s' : rand_state) :
  shuffle rand_state rand i l s = Some (l', s') -> l' ≡ₚ l.
Proof.
  revert l s. induction i as [| i IH]; intros l s H; simpl in H.
  - injection H as <- _. reflexivity.
  - destruct (rand s) as [r s1].
    destruct (swap l _ _) as [l1 |] eqn:E; simpl in H; [| discriminate].
    apply IH in H. apply swap_Permutation in E. etransitivity; eassumption.
Qed.

Section Texture.

Variable rand_state : Type.
Variable srand : Z -> rand_state.
Variable rand : rand_state -> Z * rand_state.

Local Abbreviation initPermutation := (Noise.initPermutation rand_state srand rand).
Local Abbreviation generatePerlinNoiseTexture :=
  (Noise.generatePerlinNoiseTexture rand_state srand rand).
Local Abbreviation well_formed := (Noise.well_formed rand_state).

(** The call returns the grid the two loops have filled, cell by cell. *)
Lemma texture_cells (width height seed : Z) (g : globals rand_state) :
  rand_nonneg rand_state rand -> well_formed g ->
  0 <= width -> 0 <= height -> width * height < 2 ^ 31 ->
  exists grid g',
    generatePerlinNoiseTexture width height seed g = Returns (grid, g')
    /\ initPermutation seed g = Some g'
    /\ length (p g') = 512%nat /\ Forall byte_range (p g')
    /\ length grid = Z.to_nat (width * height)
    /\ forall i j, 0 <= i < width -> 0 <= j < height ->
         exists r,
           perlin (p g') (inject_Z i / inject_Z width * 8)%Q
             (inject_Z j / inject_Z height * 8)%Q = Some r
           /\ grid !! Z.to_nat (j * width + i) = Some (Qfloor ((r + 1) / 2 * 255))
           /\ 0 <= Qfloor ((r + 1) / 2 * 255) <= 255.
Proof.
  intros Hrand Hg Hw Hh Hwh. unfold Noise.generatePerlinNoiseTexture.
  destruct (initPermutation_total rand_state srand rand seed g Hrand Hg)
    as (g' & Einit & Hlen & Htbl).
  rewrite Einit. rewrite VectorFacts.vector_size_ok_int by nia.
  destruct (texture_rows (p g') width height Hlen Htbl Hw Hh)
    as (td & -> & Htd & Hcells).
  exists td, g'. split; [reflexivity |]. split; [reflexivity |].
  split; [exact Hlen |]. split; [exact Htbl |]. split; [exact Htd |].
  intros i j Hi Hj.
  destruct (pixel_value (p g') width height i j Hlen Htbl) as (r & Er & Ev & Hr).
  exists r. split; [exact Er |]. split; [| exact Hr].
  rewrite Hcells by assumption. exact Ev.
Qed.

(** X4. For non-negative [int] sizes whose product stays below [2 ^ 31]
    the returned grid has [width * height] bytes in 0..255, stored row by
    row: cell [j * width + i] holds the noise value at
    [(8i/width, 8j/height)], over the table [initPermutation] has left,
    mapped from [-1, 1] to [0, 255] and cut to an integer.  The byte [b]
    is stated up to one unit, [b - 1 <= v < b + 2] for the mapped value
    [v]: in exact arithmetic it is the integer part of [v], and the
    rounding of the double computation can move [v] across an integer. *)
Theorem texture_layout (width height seed : Z) (g : globals rand_state) :
  rand_nonneg rand_state rand -> well_formed g ->
  0 <= width -> 0 <= height -> width * height < 2 ^ 31 ->
  exists grid g',
    generatePerlinNoiseTexture width height seed g = Returns (grid, g')
    /\ initPermutation seed g = Some g'
    /\ length grid = Z.to_nat (width * height)
    /\ Forall byte_range grid
    /\ forall i j, 0 <= i < width -> 0 <= j < height ->
         exists r b,
           perlin (p g') (inject_Z i / inject_Z width * 8)%Q
             (inject_Z j / inject_Z height * 8)%Q = Some r
           /\ grid !! Z.to_nat (j * width + i) = Some b
           /\ (inject_Z b - 1 <= (r + 1) / 2 * 255 < inject_Z b + 2)%Q.
Proof.
  intros Hrand Hg Hw Hh Hwh.
  destruct (texture_cells width height seed g Hrand Hg Hw Hh Hwh)
    as (grid & g' & E & Einit & _ & _ & Hgrid & Hcell).
  exists grid, g'. split; [exact E |]. split; [exact Einit |].
  split; [exact Hgrid |]. split.
  - apply Forall_lookup. intros k v Hk.
    pose proof (lookup_lt_Some _ _ _ Hk) as Hlt. rewrite Hgrid in Hlt.
    assert (Hwpos : 0 < width) by nia.
    pose proof (Z.mod_pos_bound (Z.of_nat k) width Hwpos) as Hmod.
    pose proof (Z.div_mod (Z.of_nat k) width ltac:(lia)) as Hdiv.
    assert (Hjpos : 0 <= Z.of_nat k / width) by (apply Z.div_pos; lia).
    assert (Hjlt : Z.of_nat k / width < height).
    { apply Z.div_lt_upper_bound; [lia | nia]. }
    destruct (Hcell (Z.of_nat k mod width) (Z.of_nat k / width) Hmod
                ltac:(lia)) as (r & _ & Ev & Hr).
    replace (Z.to_nat (Z.of_nat k / width * width + Z.of_nat k mod width)) with k
      in Ev by lia.
    rewrite Hk in Ev. injection Ev as ->. exact Hr.
  - intros i j Hi Hj. destruct (Hcell i j Hi Hj) as (r & Er & Ev & _).
    exists r, (Qfloor ((r + 1) / 2 * 255)).
    split; [exact Er |]. split; [exact Ev |].
    set (v := ((r + 1) / 2 * 255)%Q).
    pose proof (Qfloor_le v) as Hlo. pose proof (Qlt_floor v) as Hhi.
    rewrite inject_Z_plus in Hhi. change (inject_Z 1) with 1%Q in Hhi.
    split; lra.
Qed.

(** X5. When [width] and [height] both divide the frequency 8, every
    pixel falls on a lattice point and the texture is flat: all bytes are
    127, for every seed. *)
Theorem flat_texture (width height seed : Z) (g : globals rand_state) :
  rand_nonneg rand_state rand -> well_formed g ->
  0 < width -> 0 < height -> 8 mod width = 0 -> 8 mod height = 0 ->
  exists g',
    generatePerlinNoiseTexture width height seed g
    = Returns (replicate (Z.to_nat (width * height)) 127, g').
Proof.
  intros Hrand Hg Hw Hh Hdw Hdh.
  assert (Hw8 : width <= 8).
  { destruct (Z_le_gt_dec width 8) as [H | H]; [exact H |].
    rewrite Z.mod_small in Hdw by lia. discriminate. }
  assert (Hh8 : height <= 8).
  { destruct (Z_le_gt_dec height 8) as [H | H]; [exact H |].
    rewrite Z.mod_small in Hdh by lia. discriminate. }
  destruct (texture_cells width height seed g Hrand Hg) as
    (grid & g' & E & _ & Hlen0 & Htbl0 & Hlen & Hcells); [lia | lia | nia |].
  exists g'. rewrite E. f_equal. f_equal.
  apply list_eq. intros k.
  destruct (decide (k < Z.to_nat (width * height))%nat) as [Hk | Hk].
  - rewrite lookup_replicate_2 by exact Hk.
    pose proof (Z.mod_pos_bound (Z.of_nat k) width Hw) as Hmod.
    pose proof (Z.div_mod (Z.of_nat k) width ltac:(lia)) as Hdiv.
    assert (Hjpos : 0 <= Z.of_nat k / width) by (apply Z.div_pos; lia).
    assert (Hjlt : Z.of_nat k / width < height).
    { apply Z.div_lt_upper_bound; [lia | nia]. }
    destruct (Hcells (Z.of_nat k mod width) (Z.of_nat k / width) Hmod ltac:(lia))
      as (r & Er & Ev & _).
    replace (Z.to_nat (Z.of_nat k / width * width + Z.of_nat k mod width)) with k
      in Ev by lia.
    rewrite Ev. f_equal.
    destruct (perlin_value (p g')
                (inject_Z (Z.of_nat k mod width) / inject_Z width * 8)%Q
                (inject_Z (Z.of_nat k / width) / inject_Z height * 8)%Q Hlen0 Htbl0)
      as (pA & pB & pA1 & pB1 & Ev').
    cbv zeta in Ev'. rewrite Er in Ev'. injection Ev' as Er'.
    pose proof (lattice_coordinate (Z.of_nat k mod width) width Hw Hdw) as Hx.
    pose proof (lattice_coordinate (Z.of_nat k / width) height Hh Hdh) as Hy.
    cbv zeta in Hx, Hy.
    assert (Hr' : (r == 0)%Q).
    { rewrite Er'. apply noise_value_lattice; apply offset_zero; assumption. }
    assert (Eq : ((r + 1) / 2 * 255 == 255 # 2)%Q) by (rewrite Hr'; reflexivity).
    rewrite Eq. reflexivity.
  - rewrite !lookup_ge_None_2; [reflexivity | rewrite length_replicate; lia | lia].
Qed.

(** X6. With a negative [width * height] the call throws [length_error]
    (after [initPermutation] has run); with a width or height that is not
    positive and a product that is not negative the loops do nothing and
    the grid is [width * height] zero bytes, empty when one of them is 0. *)
Theorem texture_degenerate_sizes (width height seed : Z) (g : globals rand_state) :
  rand_nonneg rand_state rand -> well_formed g ->
  (- 2 ^ 31 <= width * height < 0 ->
   generatePerlinNoiseTexture width height seed g = Throws length_error)
  /\ (width <= 0 \/ height <= 0 -> 0 <= width * height < 2 ^ 31 ->
      exists g',
        generatePerlinNoiseTexture width height seed g
        = Returns (replicate (Z.to_nat (width * height)) 0, g')).
Proof.
  intros Hrand Hg.
  destruct (initPermutation_total rand_state srand rand seed g Hrand Hg)
    as (g' & Einit & _ & _).
  split.
  - intros Hneg. unfold Noise.generatePerlinNoiseTexture. rewrite Einit.
    rewrite VectorFacts.vector_size_ok_negative by lia. reflexivity.
  - intros Hsize Hprod. unfold Noise.generatePerlinNoiseTexture. rewrite Einit.
    rewrite VectorFacts.vector_size_ok_int by lia.
    exists g'. destruct (Z_le_gt_dec height 0) as [Hh | Hh].
    + rewrite (Z2Nat_nonpos height) by exact Hh. reflexivity.
    + rewrite (Z2Nat_nonpos width) by lia.
      rewrite for_up_skip by (intros j td; reflexivity). reflexivity.
Qed.

(** X7. [initPermutation] leaves in [p] a permutation of 0..255 followed
    by the same permutation again: [p[i + 256] = p[i]]. *)
Theorem initPermutation_table (seed : Z) (g : globals rand_state) :
  rand_nonneg rand_state rand -> well_formed g ->
  exists g' perm,
    initPermutation seed g = Some g'
    /\ p g' = perm ++ perm
    /\ perm ≡ₚ seqZ 0 256
    /\ forall i, 0 <= i < 256 -> read (p g') (i + 256) = read (p g') i.
Proof.
  intros Hrand Hg.
  destruct (initPermutation_total rand_state srand rand seed g Hrand Hg)
    as (g' & Einit & _ & _).
  destruct (initPermutation_Some rand_state srand rand seed g g' Hg Einit)
    as (perm & s & Eshuffle & Hlen & ->).
  exists {| generator := s; p := perm ++ perm |}, perm.
  split; [exact Einit |]. split; [reflexivity |]. split.
  - exact (shuffle_Permutation rand_state rand _ _ _ _ _ Eshuffle).
  - intros i Hi. cbn [p]. rewrite !read_lookup by lia.
    rewrite lookup_app_r by lia. rewrite lookup_app_l by lia.
    f_equal. lia.
Qed.

End Texture.

Lemma texture_layout_witness :
  rand_nonneg Z lcg_rand /\ Noise.well_formed Z zero_globals /\
  0 <= 3 /\ 0 <= 2 /\ 3 * 2 < 2 ^ 31 /\
  exists grid g',
    Noise.generatePerlinNoiseTexture Z lcg_srand lcg_rand 3 2 7 zero_globals
    = Returns (grid, g')
    /\ Noise.initPermutation Z lcg_srand lcg_rand 7 zero_globals = Some g'
    /\ length grid = Z.to_nat (3 * 2)
    /\ Forall byte_range grid
    /\ forall i j, 0 <= i < 3 -> 0 <= j < 2 ->
         exists r b,
           perlin (p g') (inject_Z i / inject_Z 3 * 8)%Q
             (inject_Z j / inject_Z 2 * 8)%Q = Some r
           /\ grid !! Z.to_nat (j * 3 + i) = Some b
           /\ (inject_Z b - 1 <= (r + 1) / 2 * 255 < inject_Z b + 2)%Q.
Proof.
  split; [exact lcg_rand_nonneg |]. split; [reflexivity |].
  split; [lia |]. split; [lia |]. split; [lia |].
  apply (texture_layout Z lcg_srand lcg_rand 3 2 7 zero_globals);
    [exact lcg_rand_nonneg | reflexivity | lia | lia | lia].
Defined.

Lemma flat_texture_witness :
  rand_nonneg Z lcg_rand /\ Noise.well_formed Z zero_globals /\
  0 < 4 /\ 0 < 2 /\ 8 mod 4 = 0 /\ 8 mod 2 = 0 /\
  exists g',
    Noise.generatePerlinNoiseTexture Z lcg_srand lcg_rand 4 2 7 zero_globals
    = Returns (replicate (Z.to_nat (4 * 2)) 127, g').
Proof.
  split; [exact lcg_rand_nonneg |]. split; [reflexivity |].
  split; [lia |]. split; [lia |]. split; [reflexivity |]. split; [reflexivity |].
  apply (flat_texture Z lcg_srand lcg_rand 4 2 7 zero_globals);
    [exact lcg_rand_nonneg | reflexivity | lia | lia | reflexivity | reflexivity].
Defined.

Lemma texture_degenerate_sizes_witness :
  rand_nonneg Z lcg_rand /\ Noise.well_formed Z zero_globals /\
  Noise.generatePerlinNoiseTexture Z lcg_srand lcg_rand (-1) 3 7 zero_globals
  = Throws length_error
  /\ (exists g',
        Noise.generatePerlinNoiseTexture Z lcg_srand lcg_rand 0 5 7 zero_globals
        = Returns (replicate (Z.to_nat (0 * 5)) 0, g'))
  /\ (exists g',
        Noise.generatePerlinNoiseTexture Z lcg_srand lcg_rand (-2) (-3) 7 zero_globals
        = Returns (replicate (Z.to_nat (-2 * -3)) 0, g')).
Proof.
  split; [exact lcg_rand_nonneg |]. split; [reflexivity |].
  split; [| split].
  - apply (texture_degenerate_sizes Z lcg_srand lcg_rand (-1) 3 7 zero_globals);
      [exact lcg_rand_nonneg | reflexivity | lia].
  - apply (texture_degenerate_sizes Z lcg_srand lcg_rand 0 5 7 zero_globals);
      [exact lcg_rand_nonneg | reflexivity | lia | lia].
  - apply (texture_degenerate_sizes Z lcg_srand lcg_rand (-2) (-3) 7 zero_globals);
      [exact lcg_rand_nonneg | reflexivity | lia | lia].
Defined.

Lemma initPermutation_table_witness :
  rand_nonneg Z lcg_rand /\ Noise.well_formed Z used_globals /\
  exists g' perm,
    Noise.initPermutation Z lcg_srand lcg_rand 42 used_globals = Some g'
    /\ p g' = perm ++ perm
    /\ perm ≡ₚ seqZ 0 256
    /\ forall i, 0 <= i < 256 -> read (p g') (i + 256) = read (p g') i.
Proof.
  split; [exact lcg_rand_nonneg |]. split; [reflexivity |].
  apply (initPermutation_table Z lcg_srand lcg_rand 42 used_globals);
    [exact lcg_rand_nonneg | reflexivity].
Defined.

End NoiseMore.

(** ** main.cpp: the bounding box, tightness and the generated scene *)

Module CloudMore.
Import Cloud CloudFacts.

Local Open Scope R_scope.

Ltac three_axes k Hk :=
  destruct k as [| [| [| k]]]; [| | | exfalso; lia]; clear Hk.

(** One step of the first loop: the box only grows, and takes in the
    sphere. *)
Lemma extend_bounds_step (b : vec3 * vec3) (s : Sphere) :
  box_within b (extend_bounds b s) /\ box_contains (extend_bounds b s) s.
Proof.
  destruct b as [[x0 y0 z0] [x1 y1 z1]]. destruct s as [[cx cy cz] r].
  unfold extend_bounds, extend_axis. cbn [seq fold_left center radius component].
  split; intros k Hk; three_axes k Hk;
    repeat match goal with
    | |- context [Rlt_dec ?a ?b] => destruct (Rlt_dec a b)
    | |- context [Rgt_dec ?a ?b] => destruct (Rgt_dec a b)
    end;
    cbn [fst snd component set_component vx vy vz center radius] in *; lra.
Qed.

Lemma box_within_contains (b b' : vec3 * vec3) (s : Sphere) :
  box_within b b' -> box_contains b s -> box_contains b' s.
Proof.
  intros Hw Hc k Hk. specialize (Hw k Hk). specialize (Hc k Hk). lra.
Qed.

Lemma fold_extend_bounds_within (spheres : list Sphere) (b : vec3 * vec3) :
  box_within b (fold_left extend_bounds spheres b).
Proof.
  revert b. induction spheres as [| s spheres IH]; intros b; simpl.
  - intros k Hk. lra.
  - destruct (extend_bounds_step b s) as [Hw _].
    intros k Hk. specialize (Hw k Hk). specialize (IH (extend_bounds b s) k Hk). lra.
Qed.

Lemma fold_extend_bounds_contains (spheres : list Sphere) (b : vec3 * vec3) (s : Sphere) :
  In s spheres -> box_contains (fold_left extend_bounds spheres b) s.
Proof.
  revert b. induction spheres as [| s0 spheres IH]; intros b Hin; simpl.
  - destruct Hin.
  - destruct Hin as [-> | Hin]; [| apply IH; exact Hin].
    destruct (extend_bounds_step b s) as [_ Hc].
    eapply box_within_contains; [apply fold_extend_bounds_within | exact Hc].
Qed.

(** X8. The box of the first loop contains every input sphere on every
    axis ([minP[k] <= c[k] - r] and [c[k] + r <= maxP[k]]), never shrinks
    below the initial extrema, and the center of the bounding sphere is
    its midpoint. *)
Theorem bounding_box_encloses (spheres : list Sphere) (s : Sphere) (k : nat) :
  In s spheres -> (k < 3)%nat ->
  let '(minP, maxP) := bounding_box spheres in
  component minP k <= component (center s) k - radius s
  /\ component (center s) k + radius s <= component maxP k
  /\ component minP k <= 1e9 /\ -1e9 <= component maxP k
  /\ center (computeBoundingSphere spheres) = vscale 0.5 (vadd minP maxP).
Proof.
  intros Hin Hk.
  pose proof (fold_extend_bounds_contains spheres
                (vec3_splat 1e9, vec3_splat (-1e9)) s Hin k Hk) as Hc.
  pose proof (fold_extend_bounds_within spheres
                (vec3_splat 1e9, vec3_splat (-1e9)) k Hk) as Hw.
  unfold computeBoundingSphere. fold (bounding_box spheres) in *.
  destruct (bounding_box spheres) as [minP maxP]. cbn [fst snd center] in *.
  assert (H9 : component (vec3_splat 1e9) k = 1e9).
  { three_axes k Hk; reflexivity. }
  assert (H9' : component (vec3_splat (-1e9)) k = -1e9).
  { three_axes k Hk; reflexivity. }
  rewrite H9, H9' in Hw.
  repeat split; try lra.
Qed.

Lemma bounding_box_encloses_witness :
  In {| center := Vec3 3 0 0; radius := 2 |} two_spheres /\ (0 < 3)%nat /\
  let '(minP, maxP) := bounding_box two_spheres in
  component minP 0 <= component (Vec3 3 0 0) 0 - 2
  /\ component (Vec3 3 0 0) 0 + 2 <= component maxP 0
  /\ component minP 0 <= 1e9 /\ -1e9 <= component maxP 0
  /\ center (computeBoundingSphere two_spheres) = vscale 0.5 (vadd minP maxP).
Proof.
  split; [right; left; reflexivity |]. split; [lia |].
  apply (bounding_box_encloses two_spheres {| center := Vec3 3 0 0; radius := 2 |} 0).
  - right; left; reflexivity.
  - lia.
Defined.

Lemma vlength_nonneg (v : vec3) : 0 <= vlength v.
Proof. apply sqrt_pos. Qed.

(** The running maximum is its start value or [dist_] of a sphere it has
    visited. *)
Lemma fold_extend_radius_attained (c : vec3) (spheres : list Sphere) (r : R) :
  fold_left (extend_radius c) spheres r = r
  \/ exists s, In s spheres /\ fold_left (extend_radius c) spheres r = reach c s.
Proof.
  revert r. induction spheres as [| s spheres IH]; intros r; simpl.
  - left. reflexivity.
  - destruct (IH (extend_radius c r s)) as [E | (s' & Hin & E)].
    + rewrite E. unfold extend_radius. fold (reach c s).
      destruct (Rgt_dec (reach c s) r); [| left; reflexivity].
      right. exists s. split; [left; reflexivity | reflexivity].
    + right. exists s'. split; [right; exact Hin | exact E].
Qed.

(** X10. The radius of the bounding sphere is never negative, and for a
    non-empty set of spheres with non-negative radii it is tight: some
    input sphere touches the bounding sphere from inside. *)
Theorem computeBoundingSphere_tight (spheres : list Sphere) :
  0 <= radius (computeBoundingSphere spheres)
  /\ (spheres <> [] -> (forall s, In s spheres -> 0 <= radius s) ->
      exists s, In s spheres
        /\ reach (center (computeBoundingSphere spheres)) s
           = radius (computeBoundingSphere spheres)).
Proof.
  unfold computeBoundingSphere.
  destruct (fold_left extend_bounds spheres (vec3_splat 1e9, vec3_splat (-1e9)))
    as [minP maxP].
  cbn [center radius]. set (c := vscale 0.5 (vadd minP maxP)).
  split; [apply fold_extend_radius_mono |].
  intros Hne Hrad.
  destruct (fold_extend_radius_attained c spheres 0) as [E | (s & Hin & E)].
  - destruct spheres as [| s0 spheres]; [congruence |].
    exists s0. split; [left; reflexivity |].
    pose proof (fold_extend_radius_covers c (s0 :: spheres) 0 s0
                  ltac:(left; reflexivity)) as Hle.
    fold (reach c s0) in Hle. rewrite E in Hle |- *.
    pose proof (vlength_nonneg (vsub (center s0) c)).
    pose proof (Hrad s0 ltac:(left; reflexivity)).
    unfold reach in *. lra.
  - exists s. split; [exact Hin | symmetry; exact E].
Qed.

Lemma computeBoundingSphere_tight_witness :
  0 <= radius (computeBoundingSphere two_spheres)
  /\ two_spheres <> []
  /\ (forall s, In s two_spheres -> 0 <= radius s)
  /\ exists s, In s two_spheres
       /\ reach (center (computeBoundingSphere two_spheres)) s
          = radius (computeBoundingSphere two_spheres).
Proof.
  assert (Hrad : forall s, In s two_spheres -> 0 <= radius s).
  { intros s [<- | [<- | []]]; cbn [radius]; lra. }
  destruct (computeBoundingSphere_tight two_spheres) as [Hpos Htight].
  split; [exact Hpos |]. split; [discriminate |]. split; [exact Hrad |].
  apply Htight; [discriminate | exact Hrad].
Defined.


Section Generator.

Variable engine : Type.
Variable uniform01 : engine -> R * engine.
Variable normal : R -> R -> engine -> R * engine.
Variable gamma : R -> R -> engine -> R * engine.
Variables L delta_ratio sigma_ratio alpha beta base_radius_ratio : R.

Local Abbreviation base_sphere :=
  (Cloud.base_sphere engine uniform01 L delta_ratio base_radius_ratio).
Local Abbreviation generateCloudSpheres :=
  (Cloud.generateCloudSpheres engine uniform01 normal gamma L delta_ratio sigma_ratio
     alpha beta base_radius_ratio).


Lemma generated_radius_range (base_radius : R) (s : Sphere) :
  0 < L -> delta_ratio <= 1 -> base_radius <= L / 2 ->
  generated L delta_ratio base_radius s -> 0 <= radius s <= L / 2.
Proof.
  intros HL Hdelta Hbase (u & br & Hu01 & Hbr & Hy & Hxz & Hr).
  destruct Hxz as [Hx Hz]; [lra |].
  destruct (min_radius_bounds L base_radius HL Hbase) as [Hm1 Hm2].
  assert (Hybase : vy (center s) - radius s <= L).
  { rewrite Hy. unfold delta.
    assert (Hud : u * delta_ratio <= 1).
    { destruct (Rle_or_gt delta_ratio 0); nra. }
    replace (u * (L * delta_ratio)) with (L * (u * delta_ratio)) by ring. nra. }
  pose proof (max_radius_nonneg L _ _ _ Hx Hz Hybase) as HM0.
  pose proof (max_radius_le_half L (vx (center s)) (vz (center s))
                (vy (center s) - radius s) ltac:(lra)) as HM1.
  fold (max_radius_of L s) in HM0, HM1.
  destruct (interpolation_between (min_radius L base_radius) (max_radius_of L s)
              br Hbr) as [Hlt Hge].
  rewrite <- Hr in Hlt, Hge.
  destruct (Rle_or_gt (min_radius L base_radius) (max_radius_of L s)) as [Hc | Hc].
  - specialize (Hge Hc). lra.
  - assert (Hc' : max_radius_of L s < min_radius L base_radius) by lra.
    specialize (Hlt Hc'). lra.
Qed.


End Generator.



Lemma bounding_reach (spheres : list Sphere) (s : Sphere) :
  In s spheres ->
  reach (center (computeBoundingSphere spheres)) s
  <= radius (computeBoundingSphere spheres).
Proof.
  intros Hin. unfold computeBoundingSphere, reach.
  destruct (fold_left extend_bounds spheres (vec3_splat 1e9, vec3_splat (-1e9)))
    as [minP maxP].
  cbn [center radius]. apply fold_extend_radius_covers. exact Hin.
Qed.

(** X13. The scene of [main] ([L = 10], [N = 20], default arguments): the
    generator returns 20 spheres; the first is the base sphere, of radius
    exactly 3 at the horizontal center [(5, 5)]; every sphere has a radius
    between 0 and 5, both included, and lies inside the bounding sphere,
    whose radius is at least 3. *)
Theorem main_scene_spheres {engine : Type}
  (uniform01 : engine -> R * engine) (normal gamma : R -> R -> engine -> R * engine)
  (gen : engine) :
  uniform01_in_range engine uniform01 -> gamma_positive engine gamma ->
  exists base rest gen',
    let spheres := base :: rest in
    let B := computeBoundingSphere spheres in
    main_scene uniform01 normal gamma gen = Returns (spheres, B, gen')
    /\ length spheres = 20%nat
    /\ radius base = 3 /\ vx (center base) = 5 /\ vz (center base) = 5
    /\ (forall s, In s spheres ->
          0 <= radius s <= 5 /\ reach (center B) s <= radius B)
    /\ 3 <= radius B.
Proof.
  intros Hu Hg. unfold main_scene, generateCloudSpheres_default.
  destruct (generateCloudSpheres_returns engine uniform01 normal gamma
              10 0.1 0.2 2 5 0.3 20 gen Hu Hg ltac:(lia))
    as (rest & gen' & E & Hlen & Hrest).
  rewrite E.
  assert (Hbase : radius (fst (base_sphere engine uniform01 10 0.1 0.3 gen)) = 3
                  /\ vx (center (fst (base_sphere engine uniform01 10 0.1 0.3 gen))) = 5
                  /\ vz (center (fst (base_sphere engine uniform01 10 0.1 0.3 gen))) = 5).
  { unfold base_sphere, delta. pose proof (Hu gen) as Hu0.
    destruct (uniform01 gen) as [u gen1]. cbn [fst center radius vx vy vz] in *.
    repeat split; [split_min_max | lra | lra]. }
  set (base := fst (base_sphere engine uniform01 10 0.1 0.3 gen)) in *.
  destruct Hbase as (Hb3 & Hbx & Hbz).
  exists base, rest, gen'. cbv zeta.
  split; [reflexivity |]. split; [simpl; rewrite Hlen; reflexivity |].
  split; [exact Hb3 |]. split; [exact Hbx |]. split; [exact Hbz |].
  split.
  - intros s Hs. split; [| apply bounding_reach; exact Hs].
    destruct Hs as [<- | Hs]; [lra |].
    rewrite Forall_forall in Hrest.
    assert (Hgen : generated 10 0.1 (radius base) s).
    { apply Hrest. apply list_elem_of_In. exact Hs. }
    pose proof (generated_radius_range 10 0.1 (radius base) s
                  ltac:(lra) ltac:(lra) ltac:(lra) Hgen). lra.
  - pose proof (bounding_reach (base :: rest) base ltac:(left; reflexivity)) as H.
    unfold reach in H.
    pose proof (vlength_nonneg
                  (vsub (center base) (center (computeBoundingSphere (base :: rest))))).
    lra.
Qed.

Lemma main_scene_spheres_witness :
  uniform01_in_range nat (const_uniform 0.5) /\
  gamma_positive nat (const_gamma 1) /\
  exists base rest gen',
    let spheres := base :: rest in
    let B := computeBoundingSphere spheres in
    main_scene (const_uniform 0.5) (const_normal 1) (const_gamma 1) 0%nat
    = Returns (spheres, B, gen')
    /\ length spheres = 20%nat
    /\ radius base = 3 /\ vx (center base) = 5 /\ vz (center base) = 5
    /\ (forall s, In s spheres ->
          0 <= radius s <= 5 /\ reach (center B) s <= radius B)
    /\ 3 <= radius B.
Proof.
  split; [apply const_uniform_in_range; lra |].
  split; [apply const_gamma_positive; lra |].
  apply (main_scene_spheres (const_uniform 0.5) (const_normal 1) (const_gamma 1) 0%nat);
    [apply const_uniform_in_range; lra | apply const_gamma_positive; lra].
Defined.

End CloudMore.

(** ** The shaders: the distance field, the rays and the marching loop *)

Module ShaderMore.
Import FragmentShader ShaderFacts.

Local Open Scope R_scope.




Lemma exp_le_compat (x y : R) : x <= y -> exp x <= exp y.
Proof.
  intros [H | ->]; [left; apply exp_increasing; exact H | lra].
Qed.

Section Uniforms.

Variable iTime : R.
Variable uBoundingSphereCenter : vec3.
Variable uBoundingSphereRadius : R.
Variable uSphereCount : Z.
Variable uSpheres : Z -> vec4.
Variable uNoiseTex : vec2 -> vec4.

Local Abbreviation sdCloud := (FragmentShader.sdCloud uSphereCount uSpheres).
Local Abbreviation cloudDensity :=
  (FragmentShader.cloudDensity iTime uSphereCount uSpheres uNoiseTex).
Local Abbreviation shadow_loop :=
  (FragmentShader.shadow_loop iTime uBoundingSphereCenter uBoundingSphereRadius
     uSphereCount uSpheres uNoiseTex).
Local Abbreviation ray_det :=
  (FragmentShader.ray_det uBoundingSphereCenter uBoundingSphereRadius).
Local Abbreviation ray_t2 :=
  (FragmentShader.ray_t2 uBoundingSphereCenter uBoundingSphereRadius).
Local Abbreviation marchStep :=
  (FragmentShader.marchStep uBoundingSphereCenter uBoundingSphereRadius).
Local Abbreviation march_body :=
  (FragmentShader.march_body iTime uBoundingSphereCenter uBoundingSphereRadius
     uSphereCount uSpheres uNoiseTex).
Local Abbreviation march :=
  (FragmentShader.march iTime uBoundingSphereCenter uBoundingSphereRadius
     uSphereCount uSpheres uNoiseTex).
Local Abbreviation shade :=
  (FragmentShader.shade iTime uBoundingSphereCenter uBoundingSphereRadius
     uSphereCount uSpheres uNoiseTex).
Local Abbreviation main :=
  (FragmentShader.main iTime uBoundingSphereCenter uBoundingSphereRadius
     uSphereCount uSpheres uNoiseTex).
Local Abbreviation camera :=
  (FragmentShader.camera uBoundingSphereCenter uBoundingSphereRadius).
Local Abbreviation ray_direction :=
  (FragmentShader.ray_direction uBoundingSphereRadius).
Local Abbreviation sample_point :=
  (FragmentShader.sample_point uBoundingSphereCenter uBoundingSphereRadius).

Lemma sdCloud_loop_positive (p : vec3) (n : nat) (i : Z) (d : R) :
  sdCloud_loop uSpheres p n i d > 0
  <-> d > 0 /\ forall k, (i <= k < i + Z.of_nat n)%Z -> sphere_distance uSpheres p k > 0.
Proof.
  revert i d. induction n as [| n IH]; intros i d; simpl.
  - split; [intros H; split; [exact H | intros k Hk; lia] | intros [H _]; exact H].
  - rewrite IH. fold (sphere_distance uSpheres p i).
    split.
    + intros [Hmin Hrest].
      assert (Hd : d > 0 /\ sphere_distance uSpheres p i > 0).
      { revert Hmin. unfold Rmin. destruct (Rle_dec d (sphere_distance uSpheres p i)); lra. }
      split; [apply Hd |]. intros k Hk.
      destruct (Z.eq_dec k i) as [-> | Hne]; [apply Hd | apply Hrest; lia].
    + intros [Hd Hall]. split.
      * pose proof (Hall i ltac:(lia)). unfold Rmin.
        destruct (Rle_dec d (sphere_distance uSpheres p i)); lra.
      * intros k Hk. apply Hall. lia.
Qed.

Lemma sdCloud_loop_le (p : vec3) (n : nat) (i : Z) (d : R) :
  sdCloud_loop uSpheres p n i d <= d.
Proof.
  revert i d. induction n as [| n IH]; intros i d; simpl; [lra |].
  eapply Rle_trans; [apply IH | apply Rmin_l].
Qed.

(** X14. [sdCloud p] is positive exactly when [p] is strictly outside
    every one of the [uSphereCount] spheres; it never exceeds the initial
    [1e6]. *)
Theorem sdCloud_positive_iff_outside (p : vec3) :
  (sdCloud p > 0
   <-> forall i, (0 <= i < uSphereCount)%Z -> sphere_distance uSpheres p i > 0)
  /\ sdCloud p <= 1e6.
Proof.
  split; [| apply sdCloud_loop_le].
  unfold FragmentShader.sdCloud. rewrite sdCloud_loop_positive. split.
  - intros [_ H] i Hi. apply H. lia.
  - intros H. split; [lra |]. intros k Hk. apply H. lia.
Qed.

Lemma smoothstep_positive (x : R) : smoothstep 0.3 1 x > 0 <-> x > 0.3.
Proof.
  unfold smoothstep.
  pose proof (clamp_01 ((x - 0.3) / (1 - 0.3))) as Ht.
  assert (Hpos : clamp ((x - 0.3) / (1 - 0.3)) 0 1 > 0 <-> x > 0.3).
  { unfold clamp.
    assert (Hdiv : (x - 0.3) / (1 - 0.3) > 0 <-> x > 0.3).
    { split; intros H.
      - assert (H' : (x - 0.3) / (1 - 0.3) * (1 - 0.3) > 0) by nra.
        replace ((x - 0.3) / (1 - 0.3) * (1 - 0.3)) with (x - 0.3) in H' by (field; lra).
        lra.
      - apply Rdiv_lt_0_compat; lra. }
    unfold Rmin, Rmax.
    destruct (Rle_dec ((x - 0.3) / (1 - 0.3)) 0);
      match goal with |- context [Rle_dec ?a 1] => destruct (Rle_dec a 1) end; lra. }
  set (t := clamp ((x - 0.3) / (1 - 0.3)) 0 1) in *.
  rewrite <- Hpos. split; intros H.
  - destruct (Rle_or_gt t 0) as [H0 | H0]; [| exact H0].
    assert (t = 0) by lra. subst t. nra.
  - assert (0 < t * t) by nra. nra.
Qed.

(** X15. The density lies in [0, 1], and it is positive exactly at the
    points that are inside or on some sphere and whose noise texel exceeds
    0.3. *)
Theorem cloudDensity_positive_iff (p : vec3) :
  0 <= cloudDensity p <= 1
  /\ (cloudDensity p > 0 <-> sdCloud p <= 0 /\ noise_sample iTime uNoiseTex p > 0.3).
Proof.
  split; [apply cloudDensity_range |].
  unfold FragmentShader.cloudDensity, noise_sample. cbv zeta. cbn [vx vy vz].
  destruct (Rgt_dec (sdCloud p) 0) as [Hout | Hin].
  - split; [lra | intros [H _]; lra].
  - rewrite smoothstep_positive. split; [intros H; split; lra | intros [_ H]; exact H].
Qed.

(** The loop stops as soon as the factor is below 0.01, and one step
    attenuates by at most [exp(-0.3)]. *)
Lemma shadow_loop_bounds (n : nat) (lpos : vec3) (shadow : R) :
  0.01 <= shadow ->
  0.01 * exp (-0.3) <= shadow_loop n lpos shadow <= shadow.
Proof.
  assert (He : 0 < exp (-0.3) <= 1).
  { split; [apply exp_pos |]. rewrite <- exp_0. apply exp_le_compat. lra. }
  revert lpos shadow. induction n as [| n IH]; intros lpos shadow Hs; simpl.
  - nra.
  - match goal with
    | |- context [Rgt_dec ?d 0] => destruct (Rgt_dec d 0); [nra |]
    end.
    match goal with
    | |- context [Rgt_dec ?ds 0.02] =>
        pose proof (cloudDensity_range iTime uSphereCount uSpheres uNoiseTex
                      (vadd lpos (vscale 0.05 lightDir))) as Hds;
        destruct (Rgt_dec ds 0.02) as [Hgt | Hle]
    end.
    + set (ds := cloudDensity (vadd lpos (vscale 0.05 lightDir))) in *.
      assert (Hstep : exp (-0.3) <= exp (- ds * 0.3) <= 1).
      { split; [apply exp_le_compat; nra |].
        replace (- ds * 0.3) with (- (ds * 0.3)) by ring.
        apply exp_neg_le_1. nra. }
      destruct (Rlt_dec (shadow * exp (- ds * 0.3)) 0.01) as [Hstop | Hgo].
      * nra.
      * specialize (IH (vadd lpos (vscale 0.05 lightDir))
                       (shadow * exp (- ds * 0.3)) ltac:(lra)). nra.
    + specialize (IH (vadd lpos (vscale 0.05 lightDir)) shadow Hs). exact IH.
Qed.










Lemma march_clear (ro rd : vec3) (k : nat) :
  (forall i, (i < k)%nat -> ~ cloudDensity (sample_point ro rd i) > 0.001) ->
  march ro rd k
  = {| outColor := vec3_splat 0; transmittance := 1; stopped := false |}.
Proof.
  induction k as [| k IH]; intros Hclear; simpl; [reflexivity |].
  rewrite IH by (intros i Hi; apply Hclear; lia).
  unfold FragmentShader.march_body. cbn [stopped].
  pose proof (Hclear k ltac:(lia)) as Hk. unfold FragmentShader.sample_point in Hk.
  match goal with
  | |- context [Rgt_dec ?d 0.001] => destruct (Rgt_dec d 0.001) as [Hd | Hd]
  end; [contradiction | reflexivity].
Qed.

(** X20. A ray none of whose 64 sample points has a density above 0.001
    gets exactly the background color. *)
Theorem clear_ray_background (ro rd : vec3) :
  (forall i, (i < STEPS)%nat -> ~ cloudDensity (sample_point ro rd i) > 0.001) ->
  shade ro rd = Vec4 0.6 0.6 0.6 1.
Proof.
  intros Hclear. unfold FragmentShader.shade, background.
  destruct (Rlt_dec (ray_det ro rd) 0); [reflexivity |].
  destruct (Rlt_dec (ray_t2 ro rd) 0); [reflexivity |].
  rewrite (march_clear ro rd STEPS Hclear).
  cbv zeta. cbn [outColor transmittance]. unfold vadd, vscale, vec3_splat.
  cbn [vx vy vz]. f_equal; lra.
Qed.

(** X21. With no spheres ([uSphereCount <= 0]) every pixel of [main] is
    the background color. *)
Theorem empty_scene_background (vTexCoord : vec2) :
  (uSphereCount <= 0)%Z -> main vTexCoord = Vec4 0.6 0.6 0.6 1.
Proof.
  intros Hcount. unfold FragmentShader.main, FragmentShader.shade, background.
  destruct (Rlt_dec (ray_det camera (ray_direction vTexCoord)) 0); [reflexivity |].
  destruct (Rlt_dec (ray_t2 camera (ray_direction vTexCoord)) 0); [reflexivity |].
  rewrite march_clear.
  - cbv zeta. cbn [outColor transmittance]. unfold vadd, vscale, vec3_splat.
    cbn [vx vy vz]. f_equal; lra.
  - intros i _. unfold FragmentShader.cloudDensity, FragmentShader.sdCloud.
    replace (Z.to_nat uSphereCount) with 0%nat by lia. cbn [sdCloud_loop].
    destruct (Rgt_dec 1e6 0); lra.
Qed.

(** X16. The shadow factor of a step never increases, stays positive and
    never falls below [0.01 * exp(-0.3)]; started at 1, as [main] does, it
    ends in that range. *)
Theorem shadow_loop_range (n : nat) (lpos : vec3) (shadow : R) :
  0.01 <= shadow ->
  0.01 * exp (-0.3) <= shadow_loop n lpos shadow <= shadow
  /\ 0 < shadow_loop n lpos shadow.
Proof.
  intros Hs. pose proof (shadow_loop_bounds n lpos shadow Hs) as H.
  pose proof (exp_pos (-0.3)) as He.
  split; [exact H | nra].
Qed.

End Uniforms.

Lemma sdCloud_positive_iff_outside_witness :
  sdCloud 1 unit_scene_spheres (Vec3 3 0 0) > 0
  /\ (forall i, (0 <= i < 1)%Z -> sphere_distance unit_scene_spheres (Vec3 3 0 0) i > 0)
  /\ sdCloud 1 unit_scene_spheres (Vec3 3 0 0) <= 1e6.
Proof.
  assert (H : sdCloud 1 unit_scene_spheres (Vec3 3 0 0) > 0).
  { rewrite sdCloud_unit_scene. lra. }
  destruct (sdCloud_positive_iff_outside 1 unit_scene_spheres (Vec3 3 0 0))
    as [[Hout _] Hle].
  split; [exact H |]. split; [exact (Hout H) | exact Hle].
Defined.

Lemma sdCloud_unit_scene_origin : sdCloud 1 unit_scene_spheres origin = -1.
Proof.
  unfold sdCloud. change (Z.to_nat 1) with 1%nat. cbn [sdCloud_loop].
  unfold unit_scene_spheres, origin, xyz, vlength, dot, vsub.
  cbn [vx vy vz x4 y4 z4 w4].
  replace ((0 - 0) * (0 - 0) + (0 - 0) * (0 - 0) + (0 - 0) * (0 - 0)) with 0 by ring.
  rewrite sqrt_0. rewrite Rmin_right by lra. lra.
Defined.

Lemma cloudDensity_positive_iff_witness :
  sdCloud 1 unit_scene_spheres origin <= 0
  /\ noise_sample 0 white_texture origin > 0.3
  /\ cloudDensity 0 1 unit_scene_spheres white_texture origin > 0
  /\ 0 <= cloudDensity 0 1 unit_scene_spheres white_texture origin <= 1.
Proof.
  assert (Hin : sdCloud 1 unit_scene_spheres origin <= 0).
  { rewrite sdCloud_unit_scene_origin. lra. }
  assert (Hnoise : noise_sample 0 white_texture origin > 0.3).
  { unfold noise_sample, white_texture. cbn [x4]. lra. }
  destruct (cloudDensity_positive_iff 0 1 unit_scene_spheres white_texture origin)
    as [Hrange [_ Hpos]].
  split; [exact Hin |]. split; [exact Hnoise |].
  split; [exact (Hpos (conj Hin Hnoise)) | exact Hrange].
Defined.

Lemma shadow_loop_range_witness :
  0.01 <= 1
  /\ 0.01 * exp (-0.3)
     <= shadow_loop 0 origin 1 1 unit_scene_spheres white_texture SHADOW_STEPS origin 1
     <= 1
  /\ 0 < shadow_loop 0 origin 1 1 unit_scene_spheres white_texture SHADOW_STEPS origin 1.
Proof.
  split; [lra |].
  apply (shadow_loop_range 0 origin 1 1 unit_scene_spheres white_texture
           SHADOW_STEPS origin 1).
  lra.
Defined.




Lemma no_sphere_density (p : vec3) :
  ~ cloudDensity 0 0 unit_scene_spheres white_texture p > 0.001.
Proof.
  unfold cloudDensity, sdCloud. change (Z.to_nat 0) with 0%nat. cbn [sdCloud_loop].
  destruct (Rgt_dec 1e6 0); lra.
Defined.

Lemma clear_ray_background_witness :
  (forall i, (i < STEPS)%nat ->
     ~ cloudDensity 0 0 unit_scene_spheres white_texture
         (sample_point origin 1 eye toward_sphere i) > 0.001)
  /\ shade 0 origin 1 0 unit_scene_spheres white_texture eye toward_sphere
     = Vec4 0.6 0.6 0.6 1.
Proof.
  assert (H : forall i, (i < STEPS)%nat ->
     ~ cloudDensity 0 0 unit_scene_spheres white_texture
         (sample_point origin 1 eye toward_sphere i) > 0.001).
  { intros i _. apply no_sphere_density. }
  split; [exact H |].
  exact (clear_ray_background 0 origin 1 0 unit_scene_spheres white_texture
           eye toward_sphere H).
Defined.

Lemma empty_scene_background_witness :
  (0 <= 0)%Z
  /\ main 0 origin 1 0 unit_scene_spheres white_texture (Vec2 0.5 0.5)
     = Vec4 0.6 0.6 0.6 1.
Proof.
  split; [lia |].
  apply (empty_scene_background 0 origin 1 0 unit_scene_spheres white_texture
           (Vec2 0.5 0.5)).
  lia.
Defined.

End ShaderMore.
